(** * The matcher combinators of libredex/Match.h

    A shallow embedding of the predicate library of [namespace m]: the
    arity-indexed [match_t] structs, the logical operators, the opcode and
    member predicates, the projections between entity kinds and the
    instruction-sequence matcher [has_opcodes], followed by the properties
    the specification states about them. *)

From Stdlib Require Import ZArith Ascii String Lia.
From stdpp Require Import base decidable option numbers list gmap strings.

Set Default Proof Using "Type".
Local Open Scope Z_scope.

(** ** Outcomes of evaluating a matcher

    A lambda stored in a [match_t] normally returns a [bool].  Two things in
    Match.h can end an evaluation differently: [always_assert] (used by
    [opcode_method]) aborts the process, and [std::vector::at] (used by
    [insns_matcher::matches_at]) throws [std::out_of_range]. *)

Inductive result (A : Type) : Type :=
  | Ret (a : A)
  | AssertionFailure
  | OutOfRange.
Arguments Ret {A} a.
Arguments AssertionFailure {A}.
Arguments OutOfRange {A}.

Global Instance result_ret : MRet result := @Ret.
Global Instance result_bind : MBind result := fun A B f r =>
  match r with
  | Ret a => f a
  | AssertionFailure => AssertionFailure
  | OutOfRange => OutOfRange
  end.
Global Instance result_fmap : FMap result := fun A B f r =>
  match r with
  | Ret a => Ret (f a)
  | AssertionFailure => AssertionFailure
  | OutOfRange => OutOfRange
  end.

(** [returns r] : the evaluation ran to a [return] statement. *)
Definition returns {A} (r : result A) : Prop := ∃ a, r = Ret a.

(** Modelled from the spec: the macro [always_assert] is defined in Debug.h,
    outside Match.h; the specification describes a failed precondition check
    as "a fatal assertion, not a false result". *)
Definition always_assert (cond : bool) : result unit :=
  if cond then Ret () else AssertionFailure.

(** C++ [a && b] and [a || b] on matcher results: the right operand is only
    evaluated when the left one does not decide the answer. *)
Definition and_then (a b : result bool) : result bool :=
  x ← a; if x : bool then b else Ret false.
Definition or_else (a b : result bool) : result bool :=
  x ← a; if x : bool then Ret true else b.
(** C++ [a ^ b] on two [bool]s: both operands are promoted to [int], and so
    is the result. *)
Definition int_xor (a b : bool) : Z := Z.lxor (Z.b2z a) (Z.b2z b).

(** ** Machine integers used by the sequence matcher *)

Definition SIZE_MAX : Z := 2 ^ 64 - 1.
Definition INT_MAX : Z := 2 ^ 31 - 1.
Definition INT_MIN : Z := - 2 ^ 31.

(** Arithmetic on [size_t] is modulo [2^64]. *)
Definition to_size_t (z : Z) : Z := z mod 2 ^ 64.
Definition size_t_sub (a b : Z) : Z := to_size_t (a - b).
Definition size_t_succ (a : Z) : Z := to_size_t (a + 1).

(** Conversion to [int] and [int] addition, two's complement on 32 bits. *)
Definition to_int (z : Z) : Z := (z + 2 ^ 31) mod 2 ^ 32 - 2 ^ 31.
Definition int_add (a b : Z) : Z := to_int (a + b).

(** [v.size()] and the bounds-checked [v.at(n)] of a [std::vector]; the
    argument of [at] is converted to the unsigned [size_type], so a negative
    [int] lands beyond every vector and [at] throws. *)
Definition size {A} (v : list A) : Z := Z.of_nat (length v).
Definition vector_at {A} (v : list A) (n : Z) : result A :=
  match v !! Z.to_nat (to_size_t n) with
  | Some a => Ret a
  | None => OutOfRange
  end.

(** ** The [match_t] ladder

    [match_t<T, P, N>] is specialised on the number [N] of bound parameters
    in the tuple type [P]; each specialisation stores a plain function
    pointer and the parameters by value. *)

(** Nullary specialization of N-ary match *)
Record match_t_0 (T : Type) : Type := Match0 {
  fn_0 : T → result bool
}.
Arguments Match0 {T} _.
Arguments fn_0 {T} _ _.

(** Unary specialization of N-ary match *)
Record match_t_1 (T P0 : Type) : Type := Match1 {
  fn_1 : T → P0 → result bool;
  p0_1 : P0
}.
Arguments Match1 {T P0} _ _.
Arguments fn_1 {T P0} _ _ _.
Arguments p0_1 {T P0} _.

(** Binary specialization of N-ary match *)
Record match_t_2 (T P0 P1 : Type) : Type := Match2 {
  fn_2 : T → P0 → P1 → result bool;
  p0_2 : P0;
  p1_2 : P1
}.
Arguments Match2 {T P0 P1} _ _ _.
Arguments fn_2 {T P0 P1} _ _ _ _.
Arguments p0_2 {T P0 P1} _.
Arguments p1_2 {T P0 P1} _.

(** [match_t<T, P>] with [P = std::tuple<P...>]: the specialisation is picked
    by [std::tuple_size<P>]; there is none beyond two parameters. *)
Definition match_t (T : Type) (P : list Type) : Type :=
  match P with
  | [] => match_t_0 T
  | [P0] => match_t_1 T P0
  | [P0; P1] => match_t_2 T P0 P1
  | _ => Empty_set
  end.

Definition matches {T : Type} {P : list Type} : match_t T P → T → result bool :=
  match P as P' return match_t T P' → T → result bool with
  | [] => fun m t => fn_0 m t
  | [P0] => fun m t => fn_1 m t (p0_1 m)
  | [P0; P1] => fun m t => fn_2 m t (p0_2 m) (p1_2 m)
  | _ => fun m _ => match m with end
  end.

(** ** Logical operators *)

Section Operators.
Context {T : Type}.

(** Match a subordinate match whose logical not is true *)
Definition op_not {P0} (pred0 : match_t T P0) : match_t T [match_t T P0] :=
  Match1 (fun t p0 => negb <$> matches p0 t) pred0.

(** Match two subordinate matches whose logical or is true *)
Definition op_or {P0 P1} (pred0 : match_t T P0) (pred1 : match_t T P1)
  : match_t T [match_t T P0; match_t T P1] :=
  Match2 (fun t p0 p1 => or_else (matches p0 t) (matches p1 t)) pred0 pred1.

(** Match two subordinate matches whose logical and is true *)
Definition op_and {P0 P1} (pred0 : match_t T P0) (pred1 : match_t T P1)
  : match_t T [match_t T P0; match_t T P1] :=
  Match2 (fun t p0 p1 => and_then (matches p0 t) (matches p1 t)) pred0 pred1.

(** Match two subordinate matches whose logical xor is true.

    The lambda of [operator^] returns [p0.matches(t) ^ p1.matches(t)], an
    [int]: its return type is [int], and it converts to a pointer to a
    function returning [int] only.  The [match_t] that [operator^] is to
    return stores a pointer [fn] to a function returning [bool], so its
    [return {...}] is ill-formed
    for every [T], [P0] and [P1]: there is no matcher [p ^ q].  (The
    access-flag matchers cast their [&] to [bool]; this lambda has no such
    cast.)  What is embedded is the lambda, with the type it has.  The
    language leaves open which operand of [^] is evaluated first:
    [left_first] is the compiler's choice. *)
Definition op_xor_lambda {P0 P1} (left_first : bool) (t : T)
    (p0 : match_t T P0) (p1 : match_t T P1) : result Z :=
  if left_first
  then a ← matches p0 t; b ← matches p1 t; Ret (int_xor a b)
  else b ← matches p1 t; a ← matches p0 t; Ret (int_xor a b).

(** Match any T (always matches) *)
Definition any : match_t T [] := Match0 (fun _ => Ret true).
End Operators.
Arguments any : clear implicits.

(** ** C strings

    [std::string::c_str] and [DexString::c_str] hand out a pointer to the
    characters followed by a terminating NUL.  A Rocq [string] stands for
    such a buffer: its end is the terminator.  The strings themselves may
    hold NUL characters, as a [std::string] can. *)

Definition NUL : ascii := Ascii.zero.
Definition c_str (s : string) : string := s.

Definition uchar (c : ascii) : Z := Z.of_nat (nat_of_ascii c).

(** [strcmp]: compares as [unsigned char] up to and including the first NUL
    of either buffer and returns the difference of the first pair that
    differs, or [0]. *)
Fixpoint strcmp (s1 s2 : string) : Z :=
  match s1, s2 with
  | String c1 r1, String c2 r2 =>
      if decide (c1 = c2)
      then if decide (c1 = NUL) then 0 else strcmp r1 r2
      else uchar c1 - uchar c2
  | String c1 _, EmptyString => uchar c1 - uchar NUL
  | EmptyString, String c2 _ => uchar NUL - uchar c2
  | EmptyString, EmptyString => 0
  end.

(** What a reader of the buffer sees: the characters before the first NUL. *)
Fixpoint c_content (s : string) : string :=
  match s with
  | EmptyString => EmptyString
  | String c r => if decide (c = NUL) then EmptyString else String c (c_content r)
  end.

(** A string without NUL characters. *)
Fixpoint nul_free (s : string) : bool :=
  match s with
  | EmptyString => true
  | String c r => if decide (c = NUL) then false else nul_free r
  end.

(** ** The entity model

    Match.h reads the entities through DexClass.h, DexUtil.h,
    IRInstruction.h and Transform.h.  Their classes are taken as abstract
    types and the member functions Match.h calls as operations on them; a
    value of an entity type stands for a (non-null) pointer to the entity, a
    pointer that may be null is an [option]. *)

Class EntityModel : Type := {
  DexOpcode : Type;
  DexOpcode_eq_dec :: EqDecision DexOpcode;
  OPCODE_NEW_INSTANCE : DexOpcode;
  OPCODE_INVOKE_DIRECT : DexOpcode;
  OPCODE_INVOKE_DIRECT_RANGE : DexOpcode;
  OPCODE_INVOKE_STATIC : DexOpcode;
  OPCODE_INVOKE_STATIC_RANGE : DexOpcode;
  (** [is_invoke(DexOpcode)] of the opcode header *)
  is_invoke : DexOpcode → bool;

  DexType : Type;
  DexClass : Type;
  DexMethod : Type;
  IRInstruction : Type;
  IRCode : Type;

  (** [insn->opcode()], [insn->has_method()], [insn->get_method()],
      [insn->get_type()] *)
  opcode : IRInstruction → DexOpcode;
  has_method : IRInstruction → bool;
  get_method : IRInstruction → DexMethod;
  get_type : IRInstruction → DexType;

  (** [meth->get_code()], null for a method without a body *)
  get_code : DexMethod → option IRCode;
  (** the [mie.insn] that [InstructionIterable(code)] yields, in order *)
  InstructionIterable : IRCode → list IRInstruction;

  (** [cls->get_vmethods()], [cls->get_dmethods()] *)
  get_vmethods : DexClass → list DexMethod;
  get_dmethods : DexClass → list DexMethod;

  (** [type_class(t)], null when the type has no class definition *)
  type_class : DexType → option DexClass;
}.

(** Entities with a [get_name()]. *)
Class Named (T : Type) := get_name : T → string.

(** Containers with a [find]: [contains c t] is [c.find(t) != c.end()]. *)
Class Container (C T : Type) := contains : C → T → bool.

Global Instance gset_container `{Countable T} : Container (gset T) T :=
  fun c t => bool_decide (t ∈ c).

(** ** Matchers on any entity kind *)

(** Match any T named thusly *)
Definition named {T} `{Named T} (name : string) : match_t T [string : Type] :=
  Match1 (fun t n => Ret (bool_decide (strcmp (c_str (get_name t)) (c_str n) = 0)))
         name.

(** Match which checks for membership of T in container C via C::find(T).
    The parameter type [C] is deduced from [const C& container] as the
    container type itself, so the member [P0_t p0] of the returned [match_t]
    is a container of its own, copy-initialised from the argument. *)
Definition in_ {T C} `{Container C T} (container : C) : match_t T [C] :=
  Match1 (fun t c => Ret (contains c t)) container.

Section Library.
Context `{EM : EntityModel}.

(** ** Matchers on instructions *)

(** new-instance flavors *)
Definition new_instance {P} (predicate : match_t IRInstruction P)
  : match_t IRInstruction [match_t IRInstruction P] :=
  Match1 (fun insn p =>
            let opcode := opcode insn in
            if decide (opcode = OPCODE_NEW_INSTANCE) then matches p insn
            else Ret false)
         predicate.

(** invoke-direct flavors *)
Definition invoke_direct {P} (predicate : match_t IRInstruction P)
  : match_t IRInstruction [match_t IRInstruction P] :=
  Match1 (fun insn p =>
            let opcode := opcode insn in
            if decide (opcode = OPCODE_INVOKE_DIRECT ∨
                       opcode = OPCODE_INVOKE_DIRECT_RANGE)
            then matches p insn
            else Ret false)
         predicate.

(** invoke-static flavors *)
Definition invoke_static {P} (predicate : match_t IRInstruction P)
  : match_t IRInstruction [match_t IRInstruction P] :=
  Match1 (fun insn p =>
            let opcode := opcode insn in
            if decide (opcode = OPCODE_INVOKE_STATIC ∨
                       opcode = OPCODE_INVOKE_STATIC_RANGE)
            then matches p insn
            else Ret false)
         predicate.

(** invoke of any kind *)
Definition invoke {P} (predicate : match_t IRInstruction P)
  : match_t IRInstruction [match_t IRInstruction P] :=
  Match1 (fun insn p =>
            and_then (Ret (is_invoke (opcode insn))) (matches p insn))
         predicate.

Definition invoke_any : match_t IRInstruction [match_t IRInstruction []] :=
  invoke (any IRInstruction).

(** Matches instructions with specified opcode *)
Definition is_opcode (opc : DexOpcode) : match_t IRInstruction [DexOpcode : Type] :=
  Match1 (fun insn opc => Ret (bool_decide (opcode insn = opc))) opc.

(** Matchers that map from IRInstruction -> other types *)
Definition opcode_method {P} (predicate : match_t DexMethod P)
  : match_t IRInstruction [match_t DexMethod P] :=
  Match1 (fun insn p =>
            always_assert (has_method insn) ;;
            matches p (get_method insn))
         predicate.

Definition opcode_type {P} (predicate : match_t DexType P)
  : match_t IRInstruction [match_t DexType P] :=
  Match1 (fun insn p => matches p (get_type insn)) predicate.

(** Maps match<DexType, X> => match<DexClass, X> *)
Definition as_class {P} (predicate : match_t DexClass P)
  : match_t DexType [match_t DexClass P] :=
  Match1 (fun t p =>
            match type_class t with
            | Some cls => matches p cls
            | None => Ret false
            end)
         predicate.
End Library.

(** ** The instruction-sequence matcher *)

Section Sequence.
Context `{EM : EntityModel}.

(** [std::tuple<T...>] whose components are instruction matchers
    [match_t<IRInstruction, P>], one parameter tuple [P] per component. *)
Fixpoint insn_tuple (Ps : list (list Type)) : Type :=
  match Ps with
  | [] => unit
  | P :: Ps' => (match_t IRInstruction P * insn_tuple Ps')%type
  end.

(** [std::tuple_size] *)
Definition tuple_size (Ps : list (list Type)) : Z := Z.of_nat (length Ps).

(** [insns_matcher<T, N>::matches_at]: the recursive template peels the
    component [std::get<N>(t)] and moves on to [N + 1]; the base case, [N]
    equal to the tuple size, is the empty remainder.  The embedding
    recurses on the components from [N] on. *)
Fixpoint matches_at {Ps : list (list Type)}
  : Z → list IRInstruction → insn_tuple Ps → result bool :=
  match Ps with
  | [] => fun _ _ _ => Ret true
  | P :: Ps' => fun at_ insns t =>
      insn ← vector_at insns at_;
      let insn_match := fst t in
      and_then (matches insn_match insn)
               (matches_at (int_add at_ 1) insns (snd t))
  end.

(** The loop [for (size_t i = 0; i <= insns.size() - N; ++i)] of
    [has_opcodes], over the offsets it visits: the first offset where
    [matches_at] holds returns true, falling off the end returns false. *)
Fixpoint try_offsets {Ps} (offsets : list Z) (insns : list IRInstruction)
    (t : insn_tuple Ps) : result bool :=
  match offsets with
  | [] => Ret false
  | i :: offsets' =>
      b ← matches_at (to_int i) insns t;
      if b : bool then Ret true else try_offsets offsets' insns t
  end.

(** Match methods whose code satisfied the given opcodes match *)
Definition has_opcodes {Ps} (tuple : insn_tuple Ps)
  : match_t DexMethod [insn_tuple Ps] :=
  Match1 (fun meth t =>
            match get_code meth with
            | Some code =>
                let N := tuple_size Ps in
                let insns := InstructionIterable code in
                (* No way to match if we have less insns than N *)
                if bool_decide (size insns < N) then Ret false
                else try_offsets (seqZ 0 (size_t_sub (size insns) N + 1))
                                 insns t
            | None => Ret false
            end)
         tuple.

(** The evaluation functions [std::get<j>(t).matches] of the components,
    in order. *)
Fixpoint tuple_fns {Ps} : insn_tuple Ps → list (IRInstruction → result bool) :=
  match Ps with
  | [] => fun _ => []
  | P :: Ps' => fun t => matches (fst t) :: tuple_fns (snd t)
  end.
End Sequence.

(** ** Member quantifiers on classes *)

Section Members.
Context `{EM : EntityModel}.

(** The loop bodies are the same for virtual and direct methods; each is
    written once over the member list it walks. *)

Fixpoint any_loop {P} (p : match_t DexMethod P) (methods : list DexMethod)
  : result bool :=
  match methods with
  | [] => Ret false
  | method :: rest =>
      b ← matches p method;
      if b : bool then Ret true else any_loop p rest
  end.

Fixpoint all_loop {P} (p : match_t DexMethod P) (methods : list DexMethod)
  : result bool :=
  match methods with
  | [] => Ret true
  | method :: rest =>
      b ← matches p method;
      if negb b then Ret false else all_loop p rest
  end.

Fixpoint at_most_n_loop {P} (n : Z) (p : match_t DexMethod P)
    (methods : list DexMethod) (c : Z) : result bool :=
  match methods with
  | [] => Ret true
  | method :: rest =>
      b ← matches p method;
      let c := if b : bool then size_t_succ c else c in
      if bool_decide (c > n) then Ret false else at_most_n_loop n p rest c
  end.

Fixpoint exactly_n_loop {P} (n : Z) (p : match_t DexMethod P)
    (methods : list DexMethod) (c : Z) : result bool :=
  match methods with
  | [] => Ret (bool_decide (c = n))
  | method :: rest =>
      b ← matches p method;
      let c := if b : bool then size_t_succ c else c in
      exactly_n_loop n p rest c
  end.

Fixpoint at_least_n_loop {P} (n : Z) (p : match_t DexMethod P)
    (methods : list DexMethod) (c : Z) : result bool :=
  match methods with
  | [] => Ret false
  | method :: rest =>
      b ← matches p method;
      let c := if b : bool then size_t_succ c else c in
      if bool_decide (c >= n) then Ret true else at_least_n_loop n p rest c
  end.

(** Match classes satisfying the given method match for any vmethods *)
Definition any_vmethods {P} (predicate : match_t DexMethod P)
  : match_t DexClass [match_t DexMethod P] :=
  Match1 (fun cls p => any_loop p (get_vmethods cls)) predicate.

(** Match classes satisfying the given method match all vmethods *)
Definition all_vmethods {P} (predicate : match_t DexMethod P)
  : match_t DexClass [match_t DexMethod P] :=
  Match1 (fun cls p => all_loop p (get_vmethods cls)) predicate.

(** Match classes satisfying the given method match for at most n vmethods *)
Definition at_most_n_vmethods {P} (number : Z) (predicate : match_t DexMethod P)
  : match_t DexClass [Z : Type; match_t DexMethod P] :=
  Match2 (fun cls n p => at_most_n_loop n p (get_vmethods cls) 0)
         number predicate.

(** Match classes satisfying the given method match for exactly n vmethods *)
Definition exactly_n_vmethods {P} (number : Z) (predicate : match_t DexMethod P)
  : match_t DexClass [Z : Type; match_t DexMethod P] :=
  Match2 (fun cls n p => exactly_n_loop n p (get_vmethods cls) 0)
         number predicate.

(** Match classes satisfying the given method match for at least n vmethods *)
Definition at_least_n_vmethods {P} (number : Z) (predicate : match_t DexMethod P)
  : match_t DexClass [Z : Type; match_t DexMethod P] :=
  Match2 (fun cls n p => at_least_n_loop n p (get_vmethods cls) 0)
         number predicate.

(** Match classes satisfying the given method match for any dmethods *)
Definition any_dmethods {P} (predicate : match_t DexMethod P)
  : match_t DexClass [match_t DexMethod P] :=
  Match1 (fun cls p => any_loop p (get_dmethods cls)) predicate.

(** Match classes satisfying the given method match for all dmethods *)
Definition all_dmethods {P} (predicate : match_t DexMethod P)
  : match_t DexClass [match_t DexMethod P] :=
  Match1 (fun cls p => all_loop p (get_dmethods cls)) predicate.

(** Match classes satisfying the given method match for at most n dmethods *)
Definition at_most_n_dmethods {P} (num : Z) (predicate : match_t DexMethod P)
  : match_t DexClass [Z : Type; match_t DexMethod P] :=
  Match2 (fun cls n p => at_most_n_loop n p (get_dmethods cls) 0)
         num predicate.

(** Match classes satisfying the given method match for exactly n dmethods *)
Definition exactly_n_dmethods {P} (num : Z) (predicate : match_t DexMethod P)
  : match_t DexClass [Z : Type; match_t DexMethod P] :=
  Match2 (fun cls n p => exactly_n_loop n p (get_dmethods cls) 0)
         num predicate.

(** Match classes satisfying the given method match for at least n dmethods *)
Definition at_least_n_dmethods {P} (num : Z) (predicate : match_t DexMethod P)
  : match_t DexClass [Z : Type; match_t DexMethod P] :=
  Match2 (fun cls n p => at_least_n_loop n p (get_dmethods cls) 0)
         num predicate.
End Members.

(** ** A caller that mutates the container it handed to [in]

    The caller owns a mutable container (a [std::set<T*>], say), builds
    [m::in<T>(c)] from it, inserts into [c] and then evaluates the matcher.
    The caller's containers live in a heap indexed by location; [const C&
    container] is a location in that heap. *)

Section InCaller.
Context `{Countable T}.

Definition loc : Type := positive.
Definition heap : Type := gmap loc (gset T).

(** [auto p = m::in<T>(c);] with [c] the container at [l]: the argument is
    read through the reference and copied into the matcher. *)
Definition construct_in (h : heap) (l : loc) : option (match_t T [gset T : Type]) :=
  in_ <$> h !! l.

(** [c.insert(e);] *)
Definition container_insert (h : heap) (l : loc) (e : T) : heap :=
  alter (fun c => {[ e ]} ∪ c) l h.

(** Construct, insert, evaluate: the heap after the insertion and the
    verdict of the matcher on [e]. *)
Definition in_insert_matches (h : heap) (l : loc) (e : T)
  : option (heap * result bool) :=
  p ← construct_in h l;
  let h' := container_insert h l e in
  Some (h', matches p e).
End InCaller.

(** ** Vocabulary of the statements *)

(** [accepts p s]: evaluating [p] on [s] returns [true]. *)
Definition accepts {T P} (p : match_t T P) (s : T) : Prop :=
  matches p s = Ret true.

Section Vocabulary.
Context `{EM : EntityModel}.

(** The linear instruction stream of a method, if it has a code body. *)
Definition stream (meth : DexMethod) : option (list IRInstruction) :=
  InstructionIterable <$> get_code meth.

(** Component [j] of the tuple accepts instruction [i + j], for every [j]
    below the tuple size. *)
Definition window_matches {Ps} (t : insn_tuple Ps)
    (insns : list IRInstruction) (i : nat) : Prop :=
  ∀ j : nat, (j < length Ps)%nat →
    ∃ p insn, tuple_fns t !! j = Some p ∧
              insns !! (i + j)%nat = Some insn ∧
              p insn = Ret true.

(** Every component gives a verdict on every instruction of the stream:
    none of them runs into a failed assertion there. *)
Definition verdict_everywhere {Ps} (t : insn_tuple Ps)
    (insns : list IRInstruction) : Prop :=
  ∀ p insn, p ∈ tuple_fns t → insn ∈ insns → returns (p insn).
End Vocabulary.

(** ** A small concrete entity model

    Used to run the matchers on the scenarios of the specification and to
    instantiate the general statements. *)

Module Toy.
Inductive opc : Set :=
  | NOP | CONST_STRING | NEW_INSTANCE | THROW | RETURN_VOID
  | INVOKE_VIRTUAL | INVOKE_DIRECT | INVOKE_DIRECT_RANGE
  | INVOKE_STATIC | INVOKE_STATIC_RANGE.

Global Instance opc_eq_dec : EqDecision opc.
Proof. solve_decision. Defined.

Definition invoke_family (op : opc) : bool :=
  match op with
  | INVOKE_VIRTUAL | INVOKE_DIRECT | INVOKE_DIRECT_RANGE
  | INVOKE_STATIC | INVOKE_STATIC_RANGE => true
  | _ => false
  end.

Record insn : Set := Insn {
  insn_op : opc;
  insn_callee : option string;   (* name of the method operand, if any *)
  insn_type : string             (* descriptor of the type operand *)
}.

Record method : Set := Method {
  method_name : string;
  method_code : option (list insn)
}.

Record class : Set := Class {
  class_name : string;
  class_vmethods : list method;
  class_dmethods : list method
}.

Definition ctor : method := Method "<init>" (Some [Insn RETURN_VOID None ""]).
Definition foo : method :=
  Method "foo" (Some [Insn NOP None ""; Insn INVOKE_DIRECT (Some "<init>") "";
                      Insn THROW None ""]).
Definition bar : method := Method "bar" None.
Definition empty_body : method := Method "nothing" (Some []).

Definition C : class := Class "LC;" [foo; bar] [ctor].
Definition Marker : class := Class "LMarker;" [] [].

(** Only [LC;] and [LMarker;] have a definition; any other type is
    external. *)
Definition resolve (descriptor : string) : option class :=
  if decide (descriptor = "LC;") then Some C
  else if decide (descriptor = "LMarker;") then Some Marker
  else None.

Global Instance model : EntityModel := {|
  DexOpcode := opc;
  OPCODE_NEW_INSTANCE := NEW_INSTANCE;
  OPCODE_INVOKE_DIRECT := INVOKE_DIRECT;
  OPCODE_INVOKE_DIRECT_RANGE := INVOKE_DIRECT_RANGE;
  OPCODE_INVOKE_STATIC := INVOKE_STATIC;
  OPCODE_INVOKE_STATIC_RANGE := INVOKE_STATIC_RANGE;
  is_invoke := invoke_family;
  DexType := string;
  DexClass := class;
  DexMethod := method;
  IRInstruction := insn;
  IRCode := list insn;
  opcode := insn_op;
  has_method := fun i => bool_decide (is_Some (insn_callee i));
  get_method := fun i => Method (default "" (insn_callee i)) None;
  get_type := insn_type;
  get_code := method_code;
  InstructionIterable := fun code => code;
  get_vmethods := class_vmethods;
  get_dmethods := class_dmethods;
  type_class := resolve
|}.

Global Instance method_named : Named method := method_name.
Global Instance class_named : Named class := class_name.

(** invoke-direct followed by throw, and invoke-direct followed by nop *)
Definition direct_then_throw : insn_tuple [[opc : Type]; [opc : Type]] :=
  (is_opcode INVOKE_DIRECT, (is_opcode THROW, ())).
Definition direct_then_nop : insn_tuple [[opc : Type]; [opc : Type]] :=
  (is_opcode INVOKE_DIRECT, (is_opcode NOP, ())).
End Toy.

(** * The rest of Match.h *)

(** ** Further accessors of the entity model *)

(** [t->get_access()]: a [DexAccessFlags] bit set. *)
Class HasAccess (T : Type) := get_access : T → Z.

(** The masks of DexAccess.h that Match.h tests. *)
Class AccessMasks : Type := {
  ACC_STATIC : Z;
  ACC_FINAL : Z;
  ACC_ABSTRACT : Z;
  ACC_CONSTRUCTOR : Z;
}.

(** Conversion of an integer to [bool]: everything but zero is [true]. *)
Definition to_bool (z : Z) : bool := negb (z =? 0).

(** [meth->get_proto()->get_args()->get_type_list()] *)
Class MethodArgs `{EM : EntityModel} :=
  get_type_list : DexMethod → list DexType.

(** [t->get_class()], the type of the class a member belongs to *)
Class HasClass `{EM : EntityModel} (T : Type) := get_class : T → DexType.

(** [DexField] and the field lists of a class *)
Class FieldModel `{EM : EntityModel} : Type := {
  DexField : Type;
  get_ifields : DexClass → list DexField;
  get_sfields : DexClass → list DexField;
}.

(** [DexAnnotation], [DexAnnotationSet] and
    [anno_set->get_annotations()] *)
Class AnnotationModel : Type := {
  DexAnnotation : Type;
  DexAnnotationSet : Type;
  get_annotations : DexAnnotationSet → list DexAnnotation;
}.

(** [t->get_anno_set()], null for an entity without annotations *)
Class HasAnnoSet `{AM : AnnotationModel} (T : Type) :=
  get_anno_set : T → option DexAnnotationSet.

(** ** The free functions at the head of Match.h *)

Section FreeFunctions.
Context `{EM : EntityModel}.

(** Determine if the method is a constructor.  Does NOT distinguish between
    <init> and <clinit>. *)
Definition is_constructor `{AccessMasks} `{!HasAccess DexMethod}
    (meth : DexMethod) : bool :=
  to_bool (Z.land (get_access meth) ACC_CONSTRUCTOR).

(** Determine if the method takes no arguments. *)
Definition has_no_args `{!MethodArgs} (meth : DexMethod) : bool :=
  match get_type_list meth with
  | [] => true
  | _ :: _ => false
  end.

(** Determine if the method takes exactly n arguments. *)
Definition has_n_args `{!MethodArgs} (meth : DexMethod) (n : Z) : bool :=
  bool_decide (size (get_type_list meth) = n).

(** Determine if the method has code. *)
Definition has_code (meth : DexMethod) : bool :=
  match get_code meth with
  | Some _ => true
  | None => false
  end.

(** Determine if the opcode matches any flavor of invoke-direct *)
Definition is_invoke_direct (insn : IRInstruction) : bool :=
  let op := opcode insn in
  bool_decide (op = OPCODE_INVOKE_DIRECT) ||
  bool_decide (op = OPCODE_INVOKE_DIRECT_RANGE).
End FreeFunctions.

(** ** Access-flag matchers *)

Section AccessMatchers.
Context {T : Type} `{HasAccess T} `{AccessMasks}.

(** Match T's which are final *)
Definition is_final : match_t T [] :=
  Match0 (fun t => Ret (to_bool (Z.land (get_access t) ACC_FINAL))).

(** Match T's which are static *)
Definition is_static : match_t T [] :=
  Match0 (fun t => Ret (to_bool (Z.land (get_access t) ACC_STATIC))).

(** Match T's which are interfaces *)
Definition is_abstract : match_t T [] :=
  Match0 (fun t => Ret (to_bool (Z.land (get_access t) ACC_ABSTRACT))).
End AccessMatchers.

(** ** Members, fields and annotations *)

(** The loop [for (const auto& x : xs) if (p.matches(x)) return true;
    return false;] that [any_ifields], [any_sfields] and [any_annos] each
    write out. *)
Fixpoint any_of {T P} (p : match_t T P) (xs : list T) : result bool :=
  match xs with
  | [] => Ret false
  | x :: rest =>
      b ← matches p x;
      if b : bool then Ret true else any_of p rest
  end.

Section MoreMatchers.
Context `{EM : EntityModel}.

(** Match methods that are bound to the given class. *)
Definition on_class {T} `{!HasClass T} `{!Named DexType} (type : string)
  : match_t T [string : Type] :=
  Match1 (fun t s =>
            Ret (bool_decide
                   (strcmp (c_str (get_name (get_class t))) (c_str s) = 0)))
         type.

(** Match classes satisfying the given field match for any ifields *)
Definition any_ifields `{!FieldModel} {P} (predicate : match_t DexField P)
  : match_t DexClass [match_t DexField P] :=
  Match1 (fun cls p => any_of p (get_ifields cls)) predicate.

(** Match classes satisfying the given field match for any sfields *)
Definition any_sfields `{!FieldModel} {P} (predicate : match_t DexField P)
  : match_t DexClass [match_t DexField P] :=
  Match1 (fun cls p => any_of p (get_sfields cls)) predicate.
End MoreMatchers.

(** Match dex members containing any annotation that matches the given match *)
Definition any_annos {T} `{AM : AnnotationModel} `{!HasAnnoSet T} {P}
    (predicate : match_t DexAnnotation P) : match_t T [match_t DexAnnotation P] :=
  Match1 (fun t p =>
            match get_anno_set t with
            | None => Ret false
            | Some anno_set => any_of p (get_annotations anno_set)
            end)
         predicate.

(** ** Vocabulary of the further statements *)

(** The number of elements of [xs] that [p] accepts. *)
Fixpoint count_accepted {T P} (p : match_t T P) (xs : list T) : nat :=
  match xs with
  | [] => 0%nat
  | x :: rest =>
      match matches p x with
      | Ret true => S (count_accepted p rest)
      | _ => count_accepted p rest
      end
  end.

(** [p] gives a verdict on every element of [xs]. *)
Definition verdict_on {T P} (p : match_t T P) (xs : list T) : Prop :=
  ∀ x, x ∈ xs → returns (matches p x).

(** No component of the tuple throws [std::out_of_range] of its own. *)
Definition never_out_of_range `{EM : EntityModel} {Ps} (t : insn_tuple Ps) : Prop :=
  ∀ p insn, p ∈ tuple_fns t → p insn ≠ OutOfRange.

(** ** More of the small model *)

Module ToyMore.
Record field : Set := Field {
  field_name : string;
  field_access : Z;
  field_class : string
}.

(** The values DexAccess.h gives the four masks. *)
Global Instance masks : AccessMasks := {|
  ACC_STATIC := 0x8;
  ACC_FINAL := 0x10;
  ACC_ABSTRACT := 0x400;
  ACC_CONSTRUCTOR := 0x10000
|}.

Definition counter : field := Field "counter" 0x2 "LC;".
Definition LIMIT : field := Field "LIMIT" 0x1a "LC;".
Definition VERSION : field := Field "VERSION" 0x18 "LC;".

Global Instance field_access_flags : HasAccess field := field_access.
Global Instance field_named : Named field := field_name.

Definition method_access (m : Toy.method) : Z :=
  if decide (Toy.method_name m = "<init>") then 0x10000
  else if decide (Toy.method_name m = "<clinit>") then 0x10008
  else 0x1.
Global Instance method_access_flags : HasAccess Toy.method := method_access.

Global Instance method_args : MethodArgs (EM := Toy.model) :=
  fun m => if decide (Toy.method_name m = "foo") then ["I"; "LC;"] else [].

Global Instance type_named : Named string := fun descriptor => descriptor.
Global Instance field_on_class : HasClass (EM := Toy.model) field := field_class.

Global Instance fields : FieldModel (EM := Toy.model) := {|
  DexField := field;
  get_ifields := fun cls =>
    if decide (Toy.class_name cls = "LC;") then [counter] else [];
  get_sfields := fun cls =>
    if decide (Toy.class_name cls = "LC;") then [LIMIT; VERSION] else []
|}.

Global Instance annotations : AnnotationModel := {|
  DexAnnotation := string;
  DexAnnotationSet := list string;
  get_annotations := fun set => set
|}.

Global Instance class_annotations : HasAnnoSet Toy.class := fun cls =>
  if decide (Toy.class_name cls = "LMarker;")
  then Some ["Ljava/lang/Deprecated;"]
  else None.

Definition clinit : Toy.method := Toy.Method "<clinit>" (Some []).
Definition invoke_foo : Toy.insn := Toy.Insn Toy.INVOKE_STATIC (Some "foo") "".
Definition plain_nop : Toy.insn := Toy.Insn Toy.NOP None "".
End ToyMore.

(** * Properties *)

(** ** Outcomes *)

Lemma returns_Ret {A} (a : A) : returns (Ret a).
Proof. by exists a. Qed.

Lemma not_returns_AssertionFailure {A} : ¬ returns (@AssertionFailure A).
Proof. by intros [a Ha]. Qed.

Lemma and_then_Ret (a : bool) (r : result bool) :
  and_then (Ret a) r = if a then r else Ret false.
Proof. done. Qed.

Lemma or_else_Ret (a : bool) (r : result bool) :
  or_else (Ret a) r = if a then Ret true else r.
Proof. done. Qed.

#[local] Hint Resolve returns_Ret : core.

(** ** Logical operators *)

Section OperatorFacts.
Context {T : Type} {P Q : list Type}.
Implicit Types (p : match_t T P) (q : match_t T Q) (s : T).

Lemma matches_op_not p s : matches (op_not p) s = negb <$> matches p s.
Proof. done. Qed.

Lemma matches_op_and p q s :
  matches (op_and p q) s = and_then (matches p s) (matches q s).
Proof. done. Qed.

Lemma matches_op_or p q s :
  matches (op_or p q) s = or_else (matches p s) (matches q s).
Proof. done. Qed.

(** C4, for the three operators that can be instantiated.  Whenever [p] and
    [q] both give a verdict on [s], so do [!p], [p && q] and [p || q], and:
    [!p] matches [s] iff [p] does not; [p && q] matches iff both do;
    [p || q] matches iff at least one does.  The fourth, [p ^ q], is not a
    matcher: [operator^] does not compile for any operands. *)
Theorem operators_truth_tables p q s :
  returns (matches p s) → returns (matches q s) →
  (returns (matches (op_not p) s) ∧ (accepts (op_not p) s ↔ ¬ accepts p s)) ∧
  (returns (matches (op_and p q) s) ∧
     (accepts (op_and p q) s ↔ accepts p s ∧ accepts q s)) ∧
  (returns (matches (op_or p q) s) ∧
     (accepts (op_or p q) s ↔ accepts p s ∨ accepts q s)).
Proof.
  intros [a Ha] [b Hb]. unfold accepts.
  rewrite matches_op_not, matches_op_and, matches_op_or.
  rewrite Ha, Hb, and_then_Ret, or_else_Ret.
  destruct a, b; cbn; repeat split; auto; try congruence; try tauto;
    intuition congruence.
Qed.
End OperatorFacts.

(** The operators on two concrete matchers of the small model. *)
Lemma operators_truth_tables_witness :
  let p := named (T := Toy.method) "foo" in
  let q := any Toy.method in
  (returns (matches (op_not p) Toy.bar) ∧
     (accepts (op_not p) Toy.bar ↔ ¬ accepts p Toy.bar)) ∧
  (returns (matches (op_and p q) Toy.bar) ∧
     (accepts (op_and p q) Toy.bar ↔ accepts p Toy.bar ∧ accepts q Toy.bar)) ∧
  (returns (matches (op_or p q) Toy.bar) ∧
     (accepts (op_or p q) Toy.bar ↔ accepts p Toy.bar ∨ accepts q Toy.bar)).
Proof.
  intros p q. apply (operators_truth_tables p q Toy.bar).
  - exists false. reflexivity.
  - exists true. reflexivity.
Defined.

(** ** Instruction matchers and projections *)

Section LibraryFacts.
Context `{EM : EntityModel}.

(** C7.  Each parameterized opcode-family matcher evaluates to [false] on
    an instruction whose opcode is outside its family, whatever the nested
    matcher, and to the nested matcher's outcome on that very instruction
    otherwise. *)
Theorem opcode_family_guard {P} (p : match_t IRInstruction P) (i : IRInstruction) :
  matches (new_instance p) i =
    (if decide (opcode i = OPCODE_NEW_INSTANCE) then matches p i else Ret false) ∧
  matches (invoke_direct p) i =
    (if decide (opcode i = OPCODE_INVOKE_DIRECT ∨
                opcode i = OPCODE_INVOKE_DIRECT_RANGE)
     then matches p i else Ret false) ∧
  matches (invoke_static p) i =
    (if decide (opcode i = OPCODE_INVOKE_STATIC ∨
                opcode i = OPCODE_INVOKE_STATIC_RANGE)
     then matches p i else Ret false) ∧
  matches (invoke p) i =
    (if is_invoke (opcode i) then matches p i else Ret false).
Proof. repeat split. Qed.

(** C5.  On an instruction without a method operand [opcode_method p] ends
    in the assertion failure, which is not a verdict; on an instruction
    with one it is [p] on the referenced method. *)
Theorem opcode_method_precondition {P} (p : match_t DexMethod P) (i : IRInstruction) :
  matches (opcode_method p) i =
    (if has_method i then matches p (get_method i) else AssertionFailure) ∧
  (has_method i = false → ¬ returns (matches (opcode_method p) i)).
Proof.
  assert (matches (opcode_method p) i =
          if has_method i then matches p (get_method i) else AssertionFailure) as E.
  { cbn. by destruct (has_method i). }
  split; [exact E|]. intros Hno. rewrite E, Hno.
  apply not_returns_AssertionFailure.
Qed.

(** C6.  [as_class p] evaluates to [false] on a type that has no class
    definition, and to [p] on the class otherwise; no failure is
    introduced by the projection. *)
Theorem as_class_unresolved_false {P} (p : match_t DexClass P) (t : DexType) :
  matches (as_class p) t =
    match type_class t with
    | Some cls => matches p cls
    | None => Ret false
    end.
Proof. done. Qed.
End LibraryFacts.

(** ** Member quantifiers *)

Section MemberFacts.
Context `{EM : EntityModel}.

(** C8.  On a class without virtual methods, [all_vmethods p] is true for
    every [p], and so is [exactly_n_vmethods 0 p]. *)
Theorem vmethods_vacuous {P} (p : match_t DexMethod P) (cls : DexClass) :
  get_vmethods cls = [] →
  matches (all_vmethods p) cls = Ret true ∧
  matches (exactly_n_vmethods 0 p) cls = Ret true.
Proof. intros Hnil. cbn. rewrite Hnil. done. Qed.

(** C2, at the input where the code departs from it.  On a class without
    direct methods the loop of [at_least_n_dmethods] never reaches its
    test [c >= n], so the matcher is false for every threshold, [0]
    included. *)
Theorem at_least_n_dmethods_no_members {P} (n : Z) (p : match_t DexMethod P)
    (cls : DexClass) :
  get_dmethods cls = [] →
  matches (at_least_n_dmethods n p) cls = Ret false.
Proof. intros Hnil. cbn. rewrite Hnil. done. Qed.

(** With at least one direct method and a verdict of [p] on the first of
    them, the threshold [0] is met at the first iteration. *)
Lemma at_least_0_dmethods_nonempty {P} (p : match_t DexMethod P)
    (cls : DexClass) (m : DexMethod) (rest : list DexMethod) :
  get_dmethods cls = m :: rest →
  returns (matches p m) →
  matches (at_least_n_dmethods 0 p) cls = Ret true.
Proof.
  intros Hms [b Hb]. cbn. rewrite Hms. cbn. rewrite Hb. cbn.
  by destruct b.
Qed.
End MemberFacts.

Lemma vmethods_vacuous_witness :
  matches (all_vmethods (EM := Toy.model) (named "foo")) Toy.Marker = Ret true ∧
  matches (exactly_n_vmethods (EM := Toy.model) 0 (named "foo")) Toy.Marker
    = Ret true.
Proof.
  apply (vmethods_vacuous (EM := Toy.model) (named "foo") Toy.Marker).
  reflexivity.
Defined.

Lemma at_least_n_dmethods_no_members_witness :
  matches (at_least_n_dmethods (EM := Toy.model) 0 (any Toy.method)) Toy.Marker
    = Ret false.
Proof.
  apply (at_least_n_dmethods_no_members (EM := Toy.model) 0 (any Toy.method)
           Toy.Marker).
  reflexivity.
Defined.

(** ** [named]: comparison of C strings *)

Lemma uchar_diff_zero (c1 c2 : ascii) : uchar c1 - uchar c2 = 0 ↔ c1 = c2.
Proof.
  unfold uchar. split; [|intros ->; lia].
  intros Hd. assert (nat_of_ascii c1 = nat_of_ascii c2) as Hn by lia.
  rewrite <- (ascii_nat_embedding c1), <- (ascii_nat_embedding c2).
  by rewrite Hn.
Qed.

(** [strcmp] is [0] exactly when the two buffers read the same up to their
    first NUL. *)
Lemma strcmp_zero_iff (s1 s2 : string) :
  strcmp s1 s2 = 0 ↔ c_content s1 = c_content s2.
Proof.
  revert s2. induction s1 as [|c1 r1 IH]; intros [|c2 r2]; cbn.
  - done.
  - rewrite uchar_diff_zero. destruct (decide (c2 = NUL)) as [->|Hc].
    + done.
    + split; [congruence | discriminate].
  - rewrite uchar_diff_zero. destruct (decide (c1 = NUL)) as [->|Hc].
    + done.
    + split; [congruence | discriminate].
  - destruct (decide (c1 = c2)) as [->|Hne].
    + destruct (decide (c2 = NUL)) as [->|Hc]; [done|].
      rewrite IH. split; [by intros -> | by intros [=]].
    + rewrite uchar_diff_zero.
      destruct (decide (c1 = NUL)), (decide (c2 = NUL));
        split; try congruence; try discriminate.
  Qed.

Lemma c_content_nul_free (s : string) : nul_free s = true → c_content s = s.
Proof.
  induction s as [|c r IH]; cbn; [done|].
  destruct (decide (c = NUL)); [discriminate|]. intros Hr. by rewrite IH.
Qed.

Section NamedFacts.
Context {T : Type} `{Named T}.

(** What [named] decides in general: equality of the two names as C
    strings. *)
Lemma matches_named (n : string) (e : T) :
  matches (named n) e =
    Ret (bool_decide (c_content (get_name e) = c_content n)).
Proof.
  cbn. f_equal. apply bool_decide_ext. unfold c_str. apply strcmp_zero_iff.
Qed.

(** C9, amended.  When neither the entity's name nor [n] holds a NUL
    character, [named n] matches the entity iff its name is exactly [n]. *)
Theorem named_exact_nul_free (n : string) (e : T) :
  nul_free (get_name e) = true → nul_free n = true →
  matches (named n) e = Ret (bool_decide (get_name e = n)).
Proof.
  intros He Hn. rewrite matches_named.
  by rewrite (c_content_nul_free _ He), (c_content_nul_free _ Hn).
Qed.
End NamedFacts.

Lemma named_exact_nul_free_witness :
  nul_free (get_name Toy.foo) = true ∧ nul_free "Foo" = true ∧
  matches (named "Foo") Toy.foo = Ret (bool_decide (get_name Toy.foo = "Foo")).
Proof.
  split; [reflexivity|]. split; [reflexivity|].
  apply (named_exact_nul_free "Foo" Toy.foo); reflexivity.
Defined.

(** C9 as stated does not hold: [strcmp] stops at the first NUL, so a
    [std::string] that continues after an embedded NUL matches the entity
    named by its part before the NUL, although the two names differ. *)
Lemma named_stops_at_nul :
  let n := String "f" (String "o" (String "o" (String NUL "bar"))) in
  accepts (named n) Toy.foo ∧ get_name Toy.foo ≠ n.
Proof. split; [reflexivity | discriminate]. Qed.

(** ** [in]: the container is captured at construction *)

Section InFacts.
Context `{Countable T}.

Lemma matches_in_ (c : gset T) (e : T) :
  matches (in_ c) e = Ret (bool_decide (e ∈ c)).
Proof. done. Qed.

(** C3, amended.  The matcher built from the caller's container decides
    membership in the container as it was when the matcher was built: after
    the caller inserts [e], the container holds [e], and the verdict on [e]
    is still whether [e] was a member before. *)
Theorem in_reflects_construction_time (h : heap) (l : loc) (c : gset T) (e : T) :
  h !! l = Some c →
  in_insert_matches h l e =
    Some (<[l := {[ e ]} ∪ c]> h, Ret (bool_decide (e ∈ c))).
Proof.
  intros Hl. unfold in_insert_matches, construct_in, container_insert.
  unfold heap, loc in *. rewrite Hl. cbn. do 2 f_equal.
  apply map_eq. intros l'. rewrite lookup_alter, lookup_insert.
  destruct (decide (l = l')) as [->|]; [by rewrite Hl | done].
Qed.
End InFacts.

Lemma in_reflects_construction_time_witness :
  in_insert_matches (T := nat) {[ 1%positive := {[ 7%nat ]} ]} 1%positive 7%nat =
    Some (<[1%positive := {[ 7%nat ]} ∪ {[ 7%nat ]}]> {[ 1%positive := {[ 7%nat ]} ]},
          Ret (bool_decide (7%nat ∈ ({[ 7%nat ]} : gset nat)))).
Proof.
  apply (in_reflects_construction_time
           {[ 1%positive := {[ 7%nat ]} ]} 1%positive {[ 7%nat ]} 7%nat).
  reflexivity.
Defined.

(** C3 as stated does not hold: an entity inserted after the matcher was
    built from an empty container is in the caller's container at evaluation
    time, and the matcher rejects it. *)
Lemma in_misses_later_insertion :
  let h : heap (T := nat) := {[ 1%positive := ∅ ]} in
  ∃ h' c', in_insert_matches h 1%positive 5%nat = Some (h', Ret false) ∧
           h' !! 1%positive = Some c' ∧ 5%nat ∈ c'.
Proof.
  intros h. exists (container_insert h 1%positive 5%nat), ({[ 5%nat ]} ∪ ∅).
  split; [reflexivity|]. split; [reflexivity | set_solver].
Qed.

(** ** The instruction-sequence matcher *)

Lemma to_size_t_small (z : Z) : 0 ≤ z ≤ SIZE_MAX → to_size_t z = z.
Proof. unfold to_size_t, SIZE_MAX. intros Hz. apply Z.mod_small. lia. Qed.

Lemma to_int_small (z : Z) : INT_MIN ≤ z ≤ INT_MAX → to_int z = z.
Proof.
  unfold to_int, INT_MIN, INT_MAX. intros Hz.
  rewrite Z.mod_small by lia. lia.
Qed.

Lemma size_nonneg {A} (v : list A) : 0 ≤ size v.
Proof. unfold size. lia. Qed.

Lemma vector_at_lookup {A} (v : list A) (i : nat) (a : A) :
  size v ≤ INT_MAX → v !! i = Some a → vector_at v (Z.of_nat i) = Ret a.
Proof.
  unfold size, INT_MAX, vector_at. intros Hv Hi.
  apply lookup_lt_Some in Hi as Hlt.
  rewrite to_size_t_small by (unfold SIZE_MAX; lia).
  by rewrite Nat2Z.id, Hi.
Qed.

(** Why the length of the stream matters: [matches_at] takes its offset as an
    [int].  The offset [2^31] arrives as [INT_MIN], which [at] rejects. *)
Lemma vector_at_offset_wraps {A} (v : list A) :
  size v ≤ INT_MAX + 1 → vector_at v (to_int (INT_MAX + 1)) = OutOfRange.
Proof.
  unfold size, INT_MAX, vector_at. intros Hv.
  replace (to_int (2 ^ 31 - 1 + 1)) with (- 2 ^ 31) by done.
  replace (to_size_t (- 2 ^ 31)) with (2 ^ 64 - 2 ^ 31) by done.
  rewrite lookup_ge_None_2; [done|]. lia.
Qed.

Section SequenceFacts.
Context `{EM : EntityModel}.

(** C10.  The empty tuple matches every method with a code body, also one
    whose body holds no instruction, and no method without a body. *)
Theorem has_opcodes_empty_tuple (meth : DexMethod) :
  matches (has_opcodes (Ps := []) ()) meth =
    Ret (bool_decide (is_Some (get_code meth))).
Proof.
  cbn. destruct (get_code meth) as [code|]; [|done].
  pose proof (size_nonneg (InstructionIterable code)) as Hsize.
  change (tuple_size []) with 0.
  case_bool_decide as Hlt; [lia|].
  rewrite seqZ_cons.
  - done.
  - unfold size_t_sub, to_size_t.
    pose proof (Z.mod_pos_bound (size (InstructionIterable code) - 0) (2 ^ 64)).
    lia.
Qed.

Lemma verdict_everywhere_tail {P Ps} (p : match_t IRInstruction P)
    (t : insn_tuple Ps) (insns : list IRInstruction) :
  verdict_everywhere (Ps := P :: Ps) (p, t) insns → verdict_everywhere t insns.
Proof.
  intros Hv q insn Hq Hin. apply Hv; [|done]. cbn. by apply list_elem_of_further.
Qed.

(** [matches_at] on a window that lies inside the vector decides whether
    the window matches. *)
Lemma matches_at_window {Ps} (t : insn_tuple Ps) (insns : list IRInstruction)
    (i : nat) :
  size insns ≤ INT_MAX →
  (i + length Ps ≤ length insns)%nat →
  verdict_everywhere t insns →
  ∃ b, matches_at (Z.of_nat i) insns t = Ret b ∧
       (b = true ↔ window_matches t insns i).
Proof.
  intros Hsize. revert t i.
  induction Ps as [|P Ps IH]; intros t i Hfit Hv.
  - exists true. split; [done|]. split; [|done].
    intros _ j Hj. cbn in Hj. lia.
  - destruct t as [p t]. cbn in Hfit.
    destruct (lookup_lt_is_Some_2 insns i) as [insn Hinsn]; [lia|].
    destruct (Hv (matches p) insn) as [b0 Hb0].
    { cbn. apply list_elem_of_here. }
    { by eapply list_elem_of_lookup_2. }
    assert (int_add (Z.of_nat i) 1 = Z.of_nat (S i)) as Hnext.
    { unfold int_add. rewrite to_int_small; [lia|].
      unfold size, INT_MIN, INT_MAX in *. lia. }
    destruct (IH t (S i)) as (b & Hb & Hiff);
      [lia | by eapply verdict_everywhere_tail |].
    cbn. rewrite (vector_at_lookup _ _ _ Hsize Hinsn). cbn.
    rewrite Hb0, and_then_Ret, Hnext, Hb.
    destruct b0.
    + exists b. split; [done|]. rewrite Hiff. split.
      * intros Hw [|j] Hj.
        -- exists (matches p), insn. by rewrite Nat.add_0_r.
        -- destruct (Hw j) as (q & insn' & ? & ? & ?); [cbn in Hj; lia|].
           exists q, insn'. by rewrite Nat.add_succ_r.
      * intros Hw j Hj.
        destruct (Hw (S j)) as (q & insn' & Hq & Hi' & ?); [cbn; lia|].
        exists q, insn'. rewrite Nat.add_succ_r in Hi'. done.
    + exists false. split; [done|]. split; [done|].
      intros Hw. destruct (Hw 0%nat) as (q & insn' & Hq & Hi' & Hacc);
        [cbn; lia|].
      rewrite Nat.add_0_r, Hinsn in Hi'. cbn in Hq. congruence.
Qed.
End SequenceFacts.

Section SlidingWindow.
Context `{EM : EntityModel}.

(** The loop over the offsets [lo], ..., [lo + cnt - 1], all of which
    leave room for the whole tuple, finds a match iff one of them starts a
    matching window. *)
Lemma try_offsets_window {Ps} (t : insn_tuple Ps) (insns : list IRInstruction)
    (cnt lo : nat) :
  size insns ≤ INT_MAX →
  (lo + cnt + length Ps ≤ length insns + 1)%nat →
  verdict_everywhere t insns →
  ∃ b, try_offsets (seqZ (Z.of_nat lo) (Z.of_nat cnt)) insns t = Ret b ∧
       (b = true ↔ ∃ i : nat, (lo ≤ i < lo + cnt)%nat ∧ window_matches t insns i).
Proof.
  intros Hsize. revert lo. induction cnt as [|cnt IH]; intros lo Hfit Hv.
  - exists false. rewrite seqZ_nil by lia. split; [done|].
    split; [done|]. intros (i & Hi & _). lia.
  - rewrite seqZ_cons by lia.
    replace (Z.succ (Z.of_nat lo)) with (Z.of_nat (S lo)) by lia.
    replace (Z.pred (Z.of_nat (S cnt))) with (Z.of_nat cnt) by lia.
    cbn [try_offsets].
    rewrite to_int_small by (unfold size, INT_MIN, INT_MAX in *; lia).
    destruct (matches_at_window t insns lo Hsize) as (b0 & Hb0 & Hiff0);
      [lia | done |].
    rewrite Hb0. cbn. destruct b0.
    + exists true. split; [done|]. split; [|done]. intros _.
      exists lo. split; [lia|]. by apply Hiff0.
    + destruct (IH (S lo)) as (b & Hb & Hiff); [lia | done |].
      exists b. split; [done|]. rewrite Hiff. split.
      * intros (i & Hi & Hw). exists i. split; [lia | done].
      * intros (i & Hi & Hw). exists i. split; [|done].
        destruct (decide (i = lo)) as [->|]; [|lia].
        apply Hiff0 in Hw. discriminate Hw.
Qed.

(** C1.  On a method whose stream (if any) has at most [INT_MAX]
    instructions and on which every component of the tuple gives a
    verdict, [has_opcodes] returns a verdict, and the verdict is true iff
    the method has a code body, its stream has at least as many
    instructions as the tuple has components, and some offset [i] with
    [0 <= i <= length - K] starts a window in which component [j] accepts
    instruction [i + j] for every [j < K]. *)
Theorem has_opcodes_sliding_window {Ps} (t : insn_tuple Ps) (meth : DexMethod) :
  (∀ insns, stream meth = Some insns →
            size insns ≤ INT_MAX ∧ verdict_everywhere t insns) →
  ∃ b, matches (has_opcodes t) meth = Ret b ∧
       (b = true ↔
          ∃ insns, stream meth = Some insns ∧
                   (length Ps ≤ length insns)%nat ∧
                   ∃ i : nat, (i ≤ length insns - length Ps)%nat ∧
                              window_matches t insns i).
Proof.
  unfold stream. intros Hwf. cbn.
  destruct (get_code meth) as [code|]; cbn in *.
  2:{ exists false. split; [done|]. split; [done|]. by intros (? & ? & _). }
  destruct (Hwf _ eq_refl) as [Hsize Hv].
  set (insns := InstructionIterable code) in *.
  unfold tuple_size. case_bool_decide as Hshort.
  - exists false. split; [done|]. split; [done|].
    intros (? & [= <-] & Hlen & _). unfold size in Hshort. lia.
  - assert (size_t_sub (size insns) (Z.of_nat (length Ps)) + 1 =
            Z.of_nat (length insns - length Ps + 1)) as ->.
    { unfold size_t_sub. rewrite to_size_t_small;
        unfold size, SIZE_MAX, INT_MAX in *; lia. }
    destruct (try_offsets_window t insns (length insns - length Ps + 1) 0 Hsize)
      as (b & Hb & Hiff); [unfold size in *; lia | done |].
    exists b. split; [exact Hb|]. rewrite Hiff. split.
    + intros (i & Hi & Hw). exists insns. split; [done|].
      split; [unfold size in *; lia|]. exists i. split; [lia | done].
    + intros (? & [= <-] & Hlen & i & Hi & Hw). exists i. split; [lia | done].
Qed.
End SlidingWindow.

(** [is_opcode] always gives a verdict, so the two tuples of the small model
    give one on every stream. *)
Lemma toy_tuples_verdict_everywhere (insns : list Toy.insn) :
  verdict_everywhere (EM := Toy.model) Toy.direct_then_throw insns ∧
  verdict_everywhere (EM := Toy.model) Toy.direct_then_nop insns.
Proof.
  split; intros p insn Hp _; cbn in Hp;
    repeat (apply elem_of_cons in Hp as [-> | Hp]);
    try (by eexists); by apply elem_of_nil in Hp.
Qed.

Lemma has_opcodes_sliding_window_witness :
  ∃ b, matches (has_opcodes (EM := Toy.model) Toy.direct_then_throw) Toy.foo = Ret b ∧
       (b = true ↔
          ∃ insns, stream (EM := Toy.model) Toy.foo = Some insns ∧
                   (2 ≤ length insns)%nat ∧
                   ∃ i : nat, (i ≤ length insns - 2)%nat ∧
                              window_matches (EM := Toy.model)
                                Toy.direct_then_throw insns i).
Proof.
  apply (has_opcodes_sliding_window (EM := Toy.model) Toy.direct_then_throw Toy.foo).
  intros insns Hstream. split.
  - injection Hstream as <-. vm_compute. discriminate.
  - apply toy_tuples_verdict_everywhere.
Defined.

(** ** The scenarios of the specification, run on the small model *)

(** Stream [nop; invoke-direct; throw]: the tuple (invoke-direct, throw)
    matches at offset 1; with the second component asking for [nop] instead,
    nothing matches. *)
Example has_opcodes_offset_1 :
  matches (has_opcodes (EM := Toy.model) Toy.direct_then_throw) Toy.foo = Ret true ∧
  matches (has_opcodes (EM := Toy.model) Toy.direct_then_nop) Toy.foo = Ret false.
Proof. split; reflexivity. Qed.

(** Class [C] with direct methods [{ctor}] and virtual methods [{foo, bar}]. *)
Example class_scenario :
  matches (any_vmethods (EM := Toy.model) (named "foo")) Toy.C = Ret true ∧
  matches (exactly_n_vmethods (EM := Toy.model) 2 (any Toy.method)) Toy.C = Ret true ∧
  matches (at_most_n_vmethods (EM := Toy.model) 1 (named "foo")) Toy.C = Ret true.
Proof. repeat split; reflexivity. Qed.

(** A matcher that fails its assertion takes the whole evaluation with it:
    [opcode_method] on the leading [nop] of [foo]. *)
Example has_opcodes_assertion :
  matches (has_opcodes (EM := Toy.model) (Ps := [[_]])
             (opcode_method (EM := Toy.model) (named "<init>"), ()))
          Toy.foo = AssertionFailure.
Proof. reflexivity. Qed.

(** * Further properties *)

(** ** Laws of the logical operators *)

Section OperatorLaws.
Context {T : Type} {P Q : list Type}.
Implicit Types (p : match_t T P) (q : match_t T Q) (s : T).

(** Double negation and De Morgan hold as equations between outcomes: the
    two sides give the same verdict, and fail alike when an operand fails. *)
Theorem negation_laws p q s :
  matches (op_not (op_not p)) s = matches p s ∧
  matches (op_not (op_and p q)) s = matches (op_or (op_not p) (op_not q)) s ∧
  matches (op_not (op_or p q)) s = matches (op_and (op_not p) (op_not q)) s.
Proof.
  rewrite !matches_op_not, !matches_op_and, !matches_op_or, !matches_op_not.
  destruct (matches p s) as [[]| |], (matches q s) as [[]| |]; done.
Qed.

(** [p && !p] never matches and [p || !p] never rejects: each gives the
    constant verdict whenever [p] gives one at all. *)
Theorem contradiction_and_excluded_middle p s :
  matches (op_and p (op_not p)) s = (fun _ => false) <$> matches p s ∧
  matches (op_or p (op_not p)) s = (fun _ => true) <$> matches p s.
Proof.
  rewrite matches_op_and, matches_op_or, !matches_op_not.
  destruct (matches p s) as [[]| |]; done.
Qed.

(** The lambda of [operator^] computes an exclusive or, as an [int]: when
    both operands give a verdict it returns [1] if exactly one of them is
    true and [0] otherwise, whichever operand is evaluated first. *)
Theorem xor_lambda_returns_int (left_first : bool) p q s (a b : bool) :
  matches p s = Ret a → matches q s = Ret b →
  op_xor_lambda left_first s p q = Ret (if xorb a b then 1 else 0).
Proof.
  intros Ha Hb. unfold op_xor_lambda. rewrite Ha, Hb.
  by destruct left_first, a, b.
Qed.

(** The operands of [&&] and [||] can be swapped when both give a verdict.
    (Not otherwise: of a rejecting and a failing operand, [&&] evaluates the
    second only when it comes first.) *)
Theorem operators_commute p q s :
  returns (matches p s) → returns (matches q s) →
  matches (op_and p q) s = matches (op_and q p) s ∧
  matches (op_or p q) s = matches (op_or q p) s.
Proof.
  intros [a Ha] [b Hb].
  rewrite !matches_op_and, !matches_op_or, Ha, Hb.
  by destruct a, b.
Qed.

(** [any] is a unit of [&&] on either side, and [any || p] matches without
    evaluating [p]. *)
Theorem any_unit_of_and p s :
  matches (op_and (any T) p) s = matches p s ∧
  matches (op_and p (any T)) s = matches p s ∧
  matches (op_or (any T) p) s = Ret true.
Proof.
  rewrite !matches_op_and, matches_op_or. cbn.
  destruct (matches p s) as [[]| |]; done.
Qed.
End OperatorLaws.

Lemma operators_commute_witness :
  let p := named (T := Toy.method) "foo" in
  let q := op_not (named (T := Toy.method) "bar") in
  matches (op_and p q) Toy.foo = matches (op_and q p) Toy.foo ∧
  matches (op_or p q) Toy.foo = matches (op_or q p) Toy.foo.
Proof.
  intros p q. apply (operators_commute p q Toy.foo); by eexists.
Defined.

Lemma xor_lambda_returns_int_witness :
  op_xor_lambda false Toy.foo (named "foo") (named "bar") = Ret 1 ∧
  op_xor_lambda true Toy.foo (named "foo") (named "foo") = Ret 0.
Proof.
  split.
  - apply (xor_lambda_returns_int false (named "foo") (named "bar") Toy.foo
             true false); reflexivity.
  - apply (xor_lambda_returns_int true (named "foo") (named "foo") Toy.foo
             true true); reflexivity.
Defined.

(** ** Opcode families *)

Section FamilyFacts.
Context `{EM : EntityModel}.

(** Each opcode-family matcher is the conjunction of opcode tests with the
    nested matcher. *)
Theorem opcode_family_by_is_opcode {P} (p : match_t IRInstruction P)
    (i : IRInstruction) :
  matches (new_instance p) i =
    matches (op_and (is_opcode OPCODE_NEW_INSTANCE) p) i ∧
  matches (invoke_direct p) i =
    matches (op_and (op_or (is_opcode OPCODE_INVOKE_DIRECT)
                           (is_opcode OPCODE_INVOKE_DIRECT_RANGE)) p) i ∧
  matches (invoke_static p) i =
    matches (op_and (op_or (is_opcode OPCODE_INVOKE_STATIC)
                           (is_opcode OPCODE_INVOKE_STATIC_RANGE)) p) i.
Proof.
  repeat split; cbn.
  - destruct (decide (opcode i = OPCODE_NEW_INSTANCE)); by case_bool_decide.
  - destruct (decide (opcode i = OPCODE_INVOKE_DIRECT ∨
                      opcode i = OPCODE_INVOKE_DIRECT_RANGE)) as [[?|?]|?];
      repeat case_bool_decide; cbn; try done; tauto.
  - destruct (decide (opcode i = OPCODE_INVOKE_STATIC ∨
                      opcode i = OPCODE_INVOKE_STATIC_RANGE)) as [[?|?]|?];
      repeat case_bool_decide; cbn; try done; tauto.
Qed.

(** The free function [is_invoke_direct] and the matcher [invoke_direct] on
    [any] agree. *)
Theorem is_invoke_direct_agrees (i : IRInstruction) :
  matches (invoke_direct (any IRInstruction)) i = Ret (is_invoke_direct i).
Proof.
  unfold is_invoke_direct. cbn.
  destruct (decide (opcode i = OPCODE_INVOKE_DIRECT ∨
                    opcode i = OPCODE_INVOKE_DIRECT_RANGE)) as [[?|?]|?];
    repeat case_bool_decide; cbn; try done; tauto.
Qed.

(** Behind [invoke], [opcode_method] is safe on an instruction whose invoke
    opcode comes with a method operand: the assertion is not reached on
    other opcodes and holds on invokes. *)
Theorem invoke_guards_opcode_method {P} (p : match_t DexMethod P)
    (i : IRInstruction) :
  (is_invoke (opcode i) = true → has_method i = true) →
  matches (invoke (opcode_method p)) i =
    (if is_invoke (opcode i) then matches p (get_method i) else Ret false).
Proof.
  intros Hoperand. cbn. destruct (is_invoke (opcode i)); [|done].
  cbn. by rewrite Hoperand.
Qed.
End FamilyFacts.

Lemma invoke_guards_opcode_method_witness :
  matches (invoke (EM := Toy.model) (opcode_method (EM := Toy.model) (named "foo")))
          ToyMore.invoke_foo =
    (if @is_invoke Toy.model (@opcode Toy.model ToyMore.invoke_foo)
     then matches (named "foo") (@get_method Toy.model ToyMore.invoke_foo)
     else Ret false).
Proof.
  apply (invoke_guards_opcode_method (EM := Toy.model) (named "foo")
           ToyMore.invoke_foo).
  intros _. reflexivity.
Defined.

(** The guarded projection on the invoke of [foo] and on a [nop]. *)
Example guarded_projection_runs :
  matches (invoke (EM := Toy.model) (opcode_method (EM := Toy.model) (named "foo")))
          ToyMore.invoke_foo = Ret true ∧
  matches (invoke (EM := Toy.model) (opcode_method (EM := Toy.model) (named "foo")))
          ToyMore.plain_nop = Ret false.
Proof. split; reflexivity. Qed.

(** ** Quantifiers over members *)

Lemma verdict_on_cons {T P} (p : match_t T P) (x : T) (xs : list T) :
  verdict_on p (x :: xs) → returns (matches p x) ∧ verdict_on p xs.
Proof.
  intros Hv. split.
  - apply Hv, list_elem_of_here.
  - intros y Hy. by apply Hv, list_elem_of_further.
Qed.

Lemma size_t_succ_small (c : Z) : 0 ≤ c < SIZE_MAX → size_t_succ c = c + 1.
Proof.
  unfold size_t_succ. intros Hc. apply to_size_t_small. unfold SIZE_MAX in *. lia.
Qed.

Lemma count_accepted_le_length {T P} (p : match_t T P) (xs : list T) :
  (count_accepted p xs ≤ length xs)%nat.
Proof.
  induction xs as [|x xs IH]; cbn; [lia|].
  destruct (matches p x) as [[]| |]; lia.
Qed.

(** The loop shared by [any_ifields], [any_sfields] and [any_annos]. *)
Lemma any_of_exists {T P} (p : match_t T P) (xs : list T) :
  verdict_on p xs →
  ∃ b, any_of p xs = Ret b ∧ (b = true ↔ ∃ x, x ∈ xs ∧ accepts p x).
Proof.
  unfold accepts. induction xs as [|x xs IH]; intros Hv.
  - exists false. split; [done|]. split; [done|].
    intros (x & Hx & _). by apply elem_of_nil in Hx.
  - apply verdict_on_cons in Hv as [[b Hb] Hv]. cbn. rewrite Hb. cbn.
    destruct b.
    + exists true. split; [done|]. split; [|done]. intros _.
      exists x. split; [apply list_elem_of_here | done].
    + destruct (IH Hv) as (b & Hrest & Hiff). exists b. split; [done|].
      rewrite Hiff. split.
      * intros (y & Hy & Hacc). exists y. split; [|done].
        by apply list_elem_of_further.
      * intros (y & Hy & Hacc). apply elem_of_cons in Hy as [->|Hy].
        -- congruence.
        -- by exists y.
Qed.

Section LoopFacts.
Context `{EM : EntityModel} {P : list Type}.
Implicit Types (p : match_t DexMethod P) (ms : list DexMethod).

Lemma any_loop_any_of p ms : any_loop p ms = any_of p ms.
Proof.
  induction ms as [|m ms IH]; cbn; [done|].
  destruct (matches p m) as [[]| |]; cbn; done.
Qed.

Lemma all_loop_forall p ms :
  verdict_on p ms →
  ∃ b, all_loop p ms = Ret b ∧ (b = true ↔ ∀ m, m ∈ ms → accepts p m).
Proof.
  unfold accepts. induction ms as [|m ms IH]; intros Hv.
  - exists true. split; [done|]. split; [|done].
    intros _ m Hm. by apply elem_of_nil in Hm.
  - apply verdict_on_cons in Hv as [[b Hb] Hv]. cbn. rewrite Hb. cbn.
    destruct b; cbn.
    + destruct (IH Hv) as (b & Hrest & Hiff). exists b. split; [done|].
      rewrite Hiff. split.
      * intros Hall y Hy. apply elem_of_cons in Hy as [->|Hy]; [done|].
        by apply Hall.
      * intros Hall y Hy. by apply Hall, list_elem_of_further.
    + exists false. split; [done|]. split; [done|].
      intros Hall. specialize (Hall m (list_elem_of_here _ _)). congruence.
Qed.

Lemma all_loop_dual p ms : all_loop p ms = negb <$> any_loop (op_not p) ms.
Proof.
  induction ms as [|m ms IH]; cbn; [done|].
  destruct (matches p m) as [[]| |]; cbn; done.
Qed.

Lemma any_loop_at_least_1 p ms : any_loop p ms = at_least_n_loop 1 p ms 0.
Proof.
  induction ms as [|m ms IH]; cbn; [done|].
  destruct (matches p m) as [[]| |]; cbn; done.
Qed.

Lemma all_loop_at_most_0 p ms : all_loop p ms = at_most_n_loop 0 (op_not p) ms 0.
Proof.
  induction ms as [|m ms IH]; cbn; [done|].
  destruct (matches p m) as [[]| |]; cbn; done.
Qed.

Lemma exactly_n_loop_count (n : Z) p ms (c : Z) :
  verdict_on p ms → 0 ≤ c → c + size ms ≤ SIZE_MAX →
  exactly_n_loop n p ms c =
    Ret (bool_decide (c + Z.of_nat (count_accepted p ms) = n)).
Proof.
  unfold size. revert c. induction ms as [|m ms IH]; intros c Hv Hc Hfit.
  - cbn. by rewrite Z.add_0_r.
  - apply verdict_on_cons in Hv as [[b Hb] Hv].
    cbn [exactly_n_loop count_accepted]. rewrite Hb. cbn [mbind result_bind].
    cbn [length] in Hfit. destruct b.
    + rewrite size_t_succ_small by lia. rewrite IH by (done || lia).
      f_equal. apply bool_decide_ext. lia.
    + by rewrite IH by (done || lia).
Qed.

Lemma at_most_n_loop_count (n : Z) p ms (c : Z) :
  verdict_on p ms → 0 ≤ c ≤ n → c + size ms ≤ SIZE_MAX →
  at_most_n_loop n p ms c =
    Ret (bool_decide (c + Z.of_nat (count_accepted p ms) ≤ n)).
Proof.
  unfold size. revert c. induction ms as [|m ms IH]; intros c Hv Hc Hfit.
  - cbn. rewrite Z.add_0_r. by rewrite bool_decide_eq_true_2 by lia.
  - apply verdict_on_cons in Hv as [[b Hb] Hv].
    cbn [at_most_n_loop count_accepted]. rewrite Hb. cbn [mbind result_bind].
    cbn [length] in Hfit. destruct b.
    + rewrite size_t_succ_small by lia. case_bool_decide as Hover.
      * symmetry. f_equal. apply bool_decide_eq_false_2. lia.
      * rewrite IH by (done || lia). f_equal. apply bool_decide_ext. lia.
    + case_bool_decide as Hover; [lia|]. by rewrite IH by (done || lia).
Qed.

Lemma at_least_n_loop_count (n : Z) p ms (c : Z) :
  verdict_on p ms → 0 ≤ c < n → c + size ms ≤ SIZE_MAX →
  at_least_n_loop n p ms c =
    Ret (bool_decide (n ≤ c + Z.of_nat (count_accepted p ms))).
Proof.
  unfold size. revert c. induction ms as [|m ms IH]; intros c Hv Hc Hfit.
  - cbn. rewrite Z.add_0_r. by rewrite bool_decide_eq_false_2 by lia.
  - apply verdict_on_cons in Hv as [[b Hb] Hv].
    cbn [at_least_n_loop count_accepted]. rewrite Hb. cbn [mbind result_bind].
    cbn [length] in Hfit.
    pose proof (count_accepted_le_length p ms) as Hle. destruct b.
    + rewrite size_t_succ_small by lia. case_bool_decide as Hreached.
      * symmetry. f_equal. apply bool_decide_eq_true_2. lia.
      * rewrite IH by (done || lia). f_equal. apply bool_decide_ext. lia.
    + case_bool_decide as Hreached; [lia|]. by rewrite IH by (done || lia).
Qed.
End LoopFacts.

Section QuantifierFacts.
Context `{EM : EntityModel} {P : list Type}.
Implicit Types (p : match_t DexMethod P) (cls : DexClass).

(** When [p] gives a verdict on every virtual method, [any_vmethods p] gives
    one, and it is true iff some virtual method is accepted. *)
Theorem any_vmethods_exists p cls :
  verdict_on p (get_vmethods cls) →
  ∃ b, matches (any_vmethods p) cls = Ret b ∧
       (b = true ↔ ∃ m, m ∈ get_vmethods cls ∧ accepts p m).
Proof. intros Hv. cbn. rewrite any_loop_any_of. by apply any_of_exists. Qed.

(** When [p] gives a verdict on every direct method, [all_dmethods p] gives
    one, and it is true iff every direct method is accepted. *)
Theorem all_dmethods_forall p cls :
  verdict_on p (get_dmethods cls) →
  ∃ b, matches (all_dmethods p) cls = Ret b ∧
       (b = true ↔ ∀ m, m ∈ get_dmethods cls → accepts p m).
Proof. intros Hv. cbn. by apply all_loop_forall. Qed.

(** [all_vmethods p] is [!any_vmethods(!p)], whatever [p] does. *)
Theorem all_vmethods_not_any_not p cls :
  matches (all_vmethods p) cls = matches (op_not (any_vmethods (op_not p))) cls.
Proof. cbn. apply all_loop_dual. Qed.

(** [exactly_n_vmethods n p] compares the number of accepted virtual methods
    with [n]. *)
Theorem exactly_n_vmethods_counts (n : Z) p cls :
  verdict_on p (get_vmethods cls) →
  size (get_vmethods cls) ≤ SIZE_MAX →
  matches (exactly_n_vmethods n p) cls =
    Ret (bool_decide (Z.of_nat (count_accepted p (get_vmethods cls)) = n)).
Proof.
  intros Hv Hfit. cbn. rewrite exactly_n_loop_count by (done || lia).
  f_equal.
Qed.

(** [at_most_n_vmethods n p] is true iff at most [n] virtual methods are
    accepted, although the loop stops at the first method beyond [n]. *)
Theorem at_most_n_vmethods_counts (n : Z) p cls :
  0 ≤ n →
  verdict_on p (get_vmethods cls) →
  size (get_vmethods cls) ≤ SIZE_MAX →
  matches (at_most_n_vmethods n p) cls =
    Ret (bool_decide (Z.of_nat (count_accepted p (get_vmethods cls)) ≤ n)).
Proof.
  intros Hn Hv Hfit. cbn. rewrite at_most_n_loop_count by (done || lia).
  f_equal.
Qed.

(** For a threshold of at least one, [at_least_n_vmethods n p] is true iff
    at least [n] virtual methods are accepted. *)
Theorem at_least_n_vmethods_counts (n : Z) p cls :
  1 ≤ n →
  verdict_on p (get_vmethods cls) →
  size (get_vmethods cls) ≤ SIZE_MAX →
  matches (at_least_n_vmethods n p) cls =
    Ret (bool_decide (n ≤ Z.of_nat (count_accepted p (get_vmethods cls)))).
Proof.
  intros Hn Hv Hfit. cbn. rewrite at_least_n_loop_count by (done || lia).
  f_equal.
Qed.

(** [any_dmethods p] and [at_least_n_dmethods 1 p] are the same matcher. *)
Theorem any_dmethods_at_least_1 p cls :
  matches (any_dmethods p) cls = matches (at_least_n_dmethods 1 p) cls.
Proof. cbn. apply any_loop_at_least_1. Qed.

(** [all_dmethods p] and [at_most_n_dmethods 0 (!p)] are the same matcher. *)
Theorem all_dmethods_at_most_0_not p cls :
  matches (all_dmethods p) cls = matches (at_most_n_dmethods 0 (op_not p)) cls.
Proof. cbn. apply all_loop_at_most_0. Qed.

(** For [n] of at least one, [exactly_n_dmethods n p] matches iff both
    [at_most_n_dmethods n p] and [at_least_n_dmethods n p] match. *)
Theorem exactly_n_dmethods_between (n : Z) p cls :
  1 ≤ n →
  verdict_on p (get_dmethods cls) →
  size (get_dmethods cls) ≤ SIZE_MAX →
  (accepts (exactly_n_dmethods n p) cls ↔
     accepts (at_most_n_dmethods n p) cls ∧
     accepts (at_least_n_dmethods n p) cls).
Proof.
  intros Hn Hv Hfit. unfold accepts. cbn.
  rewrite exactly_n_loop_count, at_most_n_loop_count, at_least_n_loop_count
    by (done || lia).
  rewrite !Z.add_0_l.
  repeat case_bool_decide; split; try done; try lia; intuition (done || lia).
Qed.
End QuantifierFacts.

(** Every [named] matcher gives a verdict on every member list of the small
    model. *)
Lemma toy_named_verdict_on (n : string) (ms : list Toy.method) :
  verdict_on (named n) ms.
Proof. intros m _. by eexists. Qed.

Lemma any_vmethods_exists_witness :
  ∃ b, matches (any_vmethods (EM := Toy.model) (named "bar")) Toy.C = Ret b ∧
       (b = true ↔
          ∃ m, m ∈ @get_vmethods Toy.model Toy.C ∧ accepts (named "bar") m).
Proof.
  apply (any_vmethods_exists (EM := Toy.model) (named "bar") Toy.C).
  apply toy_named_verdict_on.
Defined.

Lemma all_dmethods_forall_witness :
  ∃ b, matches (all_dmethods (EM := Toy.model) (named "<init>")) Toy.C = Ret b ∧
       (b = true ↔
          ∀ m, m ∈ @get_dmethods Toy.model Toy.C → accepts (named "<init>") m).
Proof.
  apply (all_dmethods_forall (EM := Toy.model) (named "<init>") Toy.C).
  apply toy_named_verdict_on.
Defined.

Lemma exactly_n_vmethods_counts_witness :
  matches (exactly_n_vmethods (EM := Toy.model) 1 (named "foo")) Toy.C =
    Ret (bool_decide
           (Z.of_nat (count_accepted (named "foo") (@get_vmethods Toy.model Toy.C))
            = 1)).
Proof.
  apply (exactly_n_vmethods_counts (EM := Toy.model) 1 (named "foo") Toy.C).
  - apply toy_named_verdict_on.
  - vm_compute. discriminate.
Defined.

Lemma at_most_n_vmethods_counts_witness :
  matches (at_most_n_vmethods (EM := Toy.model) 0 (any Toy.method)) Toy.C =
    Ret (bool_decide
           (Z.of_nat (count_accepted (any Toy.method)
                        (@get_vmethods Toy.model Toy.C)) ≤ 0)).
Proof.
  apply (at_most_n_vmethods_counts (EM := Toy.model) 0 (any Toy.method) Toy.C).
  - lia.
  - intros m _. by eexists.
  - vm_compute. discriminate.
Defined.

Lemma at_least_n_vmethods_counts_witness :
  matches (at_least_n_vmethods (EM := Toy.model) 2 (any Toy.method)) Toy.C =
    Ret (bool_decide
           (2 ≤ Z.of_nat (count_accepted (any Toy.method)
                            (@get_vmethods Toy.model Toy.C)))).
Proof.
  apply (at_least_n_vmethods_counts (EM := Toy.model) 2 (any Toy.method) Toy.C).
  - lia.
  - intros m _. by eexists.
  - vm_compute. discriminate.
Defined.

Lemma exactly_n_dmethods_between_witness :
  accepts (exactly_n_dmethods (EM := Toy.model) 1 (named "<init>")) Toy.C ↔
    accepts (at_most_n_dmethods (EM := Toy.model) 1 (named "<init>")) Toy.C ∧
    accepts (at_least_n_dmethods (EM := Toy.model) 1 (named "<init>")) Toy.C.
Proof.
  apply (exactly_n_dmethods_between (EM := Toy.model) 1 (named "<init>") Toy.C).
  - lia.
  - apply toy_named_verdict_on.
  - vm_compute. discriminate.
Defined.

(** ** Bounds of the instruction-sequence matcher *)

Section SequenceBounds.
Context `{EM : EntityModel}.

Lemma never_out_of_range_tail {P Ps} (p : match_t IRInstruction P)
    (t : insn_tuple Ps) :
  never_out_of_range (Ps := P :: Ps) (p, t) → never_out_of_range t.
Proof. intros Hn q insn Hq. apply Hn. cbn. by apply list_elem_of_further. Qed.

Lemma matches_at_in_bounds {Ps} (t : insn_tuple Ps) (insns : list IRInstruction)
    (i : nat) :
  size insns ≤ INT_MAX →
  (i + length Ps ≤ length insns)%nat →
  never_out_of_range t →
  matches_at (Z.of_nat i) insns t ≠ OutOfRange.
Proof.
  intros Hsize. revert t i. induction Ps as [|P Ps IH]; intros t i Hfit Hn.
  - done.
  - destruct t as [p t]. cbn in Hfit.
    destruct (lookup_lt_is_Some_2 insns i) as [insn Hinsn]; [lia|].
    assert (int_add (Z.of_nat i) 1 = Z.of_nat (S i)) as Hnext.
    { unfold int_add. rewrite to_int_small; [lia|].
      unfold size, INT_MIN, INT_MAX in *. lia. }
    cbn. rewrite (vector_at_lookup _ _ _ Hsize Hinsn). cbn.
    destruct (matches p insn) as [[]| |] eqn:Hp; cbn; try done.
    + rewrite Hnext. apply IH; [lia|]. by eapply never_out_of_range_tail.
    + exfalso. apply (Hn (matches p) insn); [|done]. cbn. apply list_elem_of_here.
Qed.

Lemma try_offsets_in_bounds {Ps} (t : insn_tuple Ps) (insns : list IRInstruction)
    (cnt lo : nat) :
  size insns ≤ INT_MAX →
  (lo + cnt + length Ps ≤ length insns + 1)%nat →
  never_out_of_range t →
  try_offsets (seqZ (Z.of_nat lo) (Z.of_nat cnt)) insns t ≠ OutOfRange.
Proof.
  intros Hsize. revert lo. induction cnt as [|cnt IH]; intros lo Hfit Hn.
  - by rewrite seqZ_nil by lia.
  - rewrite seqZ_cons by lia.
    replace (Z.succ (Z.of_nat lo)) with (Z.of_nat (S lo)) by lia.
    replace (Z.pred (Z.of_nat (S cnt))) with (Z.of_nat cnt) by lia.
    cbn [try_offsets].
    rewrite to_int_small by (unfold size, INT_MIN, INT_MAX in *; lia).
    pose proof (matches_at_in_bounds t insns lo Hsize) as Hat.
    destruct (matches_at (Z.of_nat lo) insns t) as [[]| |]; cbn; try done.
    + apply IH; [lia | done].
    + exfalso. apply Hat; [lia | done | done].
Qed.

(** The sliding window never leaves the instruction vector: when no
    component throws [std::out_of_range] of its own, [has_opcodes] ends in a
    verdict or in a component's failed assertion, never in an exception of
    [std::vector::at]. *)
Theorem has_opcodes_in_bounds {Ps} (t : insn_tuple Ps) (meth : DexMethod) :
  (∀ insns, stream meth = Some insns → size insns ≤ INT_MAX) →
  never_out_of_range t →
  returns (matches (has_opcodes t) meth) ∨
  matches (has_opcodes t) meth = AssertionFailure.
Proof.
  intros Hsize Hn.
  assert (matches (has_opcodes t) meth ≠ OutOfRange) as Hin.
  { unfold stream in Hsize. cbn.
    destruct (get_code meth) as [code|]; [|done].
    specialize (Hsize _ eq_refl). set (insns := InstructionIterable code) in *.
    unfold tuple_size. case_bool_decide as Hshort; [done|].
    assert (size_t_sub (size insns) (Z.of_nat (length Ps)) + 1 =
            Z.of_nat (length insns - length Ps + 1)) as ->.
    { unfold size_t_sub. rewrite to_size_t_small;
        unfold size, SIZE_MAX, INT_MAX in *; lia. }
    apply (try_offsets_in_bounds t insns _ 0 Hsize); [|done].
    unfold size in *. lia. }
  destruct (matches (has_opcodes t) meth) as [b| |]; [left; by exists b | by right | done].
Qed.

(** [matches_at] itself does not check its offset against the vector: with
    a component left to match, an offset at or past the end throws. *)
Theorem matches_at_past_the_end {P Ps} (p : match_t IRInstruction P)
    (t : insn_tuple Ps) (insns : list IRInstruction) (at_ : Z) :
  size insns ≤ at_ ≤ INT_MAX →
  matches_at (Ps := P :: Ps) at_ insns (p, t) = OutOfRange.
Proof.
  unfold size, INT_MAX. intros Hat. cbn. unfold vector_at.
  rewrite to_size_t_small by (unfold SIZE_MAX; lia).
  rewrite lookup_ge_None_2; [done|]. lia.
Qed.

(** What [has_opcodes] accepts has code, and at least as many instructions
    as the tuple has components. *)
Theorem has_opcodes_needs_code {Ps} (t : insn_tuple Ps) (meth : DexMethod) :
  accepts (has_opcodes t) meth →
  has_code meth = true ∧
  ∃ insns, stream meth = Some insns ∧ tuple_size Ps ≤ size insns.
Proof.
  unfold accepts, has_code, stream. cbn.
  destruct (get_code meth) as [code|]; [|done].
  case_bool_decide as Hshort; [done|]. intros _. split; [done|].
  exists (InstructionIterable code). split; [done | lia].
Qed.
End SequenceBounds.

Lemma toy_tuples_never_out_of_range :
  never_out_of_range (EM := Toy.model) Toy.direct_then_throw.
Proof.
  intros p insn Hp. cbn in Hp.
  repeat (apply elem_of_cons in Hp as [-> | Hp]); try done.
  by apply elem_of_nil in Hp.
Qed.

Lemma has_opcodes_in_bounds_witness :
  returns (matches (has_opcodes (EM := Toy.model) Toy.direct_then_throw) Toy.foo) ∨
  matches (has_opcodes (EM := Toy.model) Toy.direct_then_throw) Toy.foo
    = AssertionFailure.
Proof.
  apply (has_opcodes_in_bounds (EM := Toy.model) Toy.direct_then_throw Toy.foo).
  - intros insns Hstream. injection Hstream as <-. vm_compute. discriminate.
  - apply toy_tuples_never_out_of_range.
Defined.

Lemma matches_at_past_the_end_witness :
  matches_at (EM := Toy.model) (Ps := [[_]; [_]]) 3
    [ToyMore.plain_nop; ToyMore.invoke_foo; ToyMore.plain_nop]
    Toy.direct_then_throw = OutOfRange.
Proof.
  apply (matches_at_past_the_end (EM := Toy.model)
           (is_opcode (EM := Toy.model) Toy.INVOKE_DIRECT)
           (Ps := [[_]]) (is_opcode (EM := Toy.model) Toy.THROW, ())
           [ToyMore.plain_nop; ToyMore.invoke_foo; ToyMore.plain_nop] 3).
  vm_compute. split; discriminate.
Defined.

Lemma has_opcodes_needs_code_witness :
  has_code (EM := Toy.model) Toy.foo = true ∧
  ∃ insns, stream (EM := Toy.model) Toy.foo = Some insns ∧
           tuple_size [[Toy.opc : Type]; [Toy.opc : Type]] ≤ size insns.
Proof.
  apply (has_opcodes_needs_code (EM := Toy.model) Toy.direct_then_throw Toy.foo).
  reflexivity.
Defined.

(** ** Names *)

Section NameFacts.
Context {T : Type} `{Named T}.

(** [named n] matches an entity iff its name and [n] read the same as C
    strings; in particular an entity always matches its own name. *)
Theorem named_compares_c_strings (n : string) (e : T) :
  (accepts (named n) e ↔ c_content (get_name e) = c_content n) ∧
  accepts (named (get_name e)) e.
Proof.
  unfold accepts. rewrite !matches_named. split.
  - split.
    + intros [= Hd]. by apply bool_decide_eq_true_1 in Hd.
    + intros Heq. f_equal. by apply bool_decide_eq_true_2.
  - f_equal. by apply bool_decide_eq_true_2.
Qed.
End NameFacts.

Section OnClassFacts.
Context `{EM : EntityModel} {T : Type} `{!HasClass T} `{!Named DexType}.

(** When neither the name of the member's class nor [s] holds a NUL
    character, [on_class s] matches the member iff the two are equal. *)
Theorem on_class_exact_nul_free (s : string) (t : T) :
  nul_free (get_name (get_class t)) = true → nul_free s = true →
  matches (on_class s) t = Ret (bool_decide (get_name (get_class t) = s)).
Proof.
  intros Ht Hs. cbn. f_equal. apply bool_decide_ext. unfold c_str.
  rewrite strcmp_zero_iff.
  by rewrite (c_content_nul_free _ Ht), (c_content_nul_free _ Hs).
Qed.
End OnClassFacts.

Lemma on_class_exact_nul_free_witness :
  matches (on_class (EM := Toy.model) "LC;") ToyMore.counter =
    Ret (bool_decide (get_name (get_class (EM := Toy.model) ToyMore.counter) = "LC;")).
Proof.
  apply (on_class_exact_nul_free (EM := Toy.model) "LC;" ToyMore.counter);
    reflexivity.
Defined.

(** ** Fields and annotations *)

Section FieldFacts.
Context `{EM : EntityModel} `{!FieldModel} {P : list Type}.

(** When [p] gives a verdict on the fields of a class, [any_ifields p] and
    [any_sfields p] give one, true iff some instance field, respectively
    some static field, is accepted. *)
Theorem any_fields_exists (p : match_t DexField P) (cls : DexClass) :
  verdict_on p (get_ifields cls) → verdict_on p (get_sfields cls) →
  (∃ b, matches (any_ifields p) cls = Ret b ∧
        (b = true ↔ ∃ f, f ∈ get_ifields cls ∧ accepts p f)) ∧
  (∃ b, matches (any_sfields p) cls = Ret b ∧
        (b = true ↔ ∃ f, f ∈ get_sfields cls ∧ accepts p f)).
Proof. intros Hi Hs. split; cbn; by apply any_of_exists. Qed.
End FieldFacts.

Lemma any_fields_exists_witness :
  (∃ b, matches (any_ifields (EM := Toy.model) (named "LIMIT")) Toy.C = Ret b ∧
        (b = true ↔
           ∃ f, f ∈ get_ifields (EM := Toy.model) Toy.C ∧ accepts (named "LIMIT") f)) ∧
  (∃ b, matches (any_sfields (EM := Toy.model) (named "LIMIT")) Toy.C = Ret b ∧
        (b = true ↔
           ∃ f, f ∈ get_sfields (EM := Toy.model) Toy.C ∧ accepts (named "LIMIT") f)).
Proof.
  apply (any_fields_exists (EM := Toy.model) (named "LIMIT") Toy.C);
    intros f _; by eexists.
Defined.

Section AnnotationFacts.
Context {T : Type} `{AM : AnnotationModel} `{!HasAnnoSet T} {P : list Type}.

(** On an entity without an annotation set [any_annos p] is false and [p] is
    not evaluated; on one with a set it is true iff some annotation of the
    set is accepted. *)
Theorem any_annos_exists (p : match_t DexAnnotation P) (t : T) :
  match get_anno_set t with
  | None => matches (any_annos p) t = Ret false
  | Some anno_set =>
      verdict_on p (get_annotations anno_set) →
      ∃ b, matches (any_annos p) t = Ret b ∧
           (b = true ↔ ∃ a, a ∈ get_annotations anno_set ∧ accepts p a)
  end.
Proof.
  cbn. destruct (get_anno_set t) as [anno_set|]; [|done].
  intros Hv. by apply any_of_exists.
Qed.
End AnnotationFacts.

(** ** Arguments and access flags *)

Section FreeFunctionFacts.
Context `{EM : EntityModel}.

(** [has_no_args] is [has_n_args] at zero, and a method has exactly [n]
    arguments for one [n] only. *)
Theorem has_no_args_is_zero_args `{!MethodArgs} (meth : DexMethod) :
  has_no_args meth = has_n_args meth 0 ∧
  ∀ n n', has_n_args meth n = true → has_n_args meth n' = true → n = n'.
Proof.
  unfold has_no_args, has_n_args, size. split.
  - destruct (get_type_list meth); cbn [length]; by case_bool_decide.
  - intros n n' Hn Hn'.
    apply bool_decide_eq_true_1 in Hn, Hn'. congruence.
Qed.

(** [is_constructor] does not distinguish <init> from <clinit>: adding the
    static bit to the access flags of a method leaves its answer as it was
    (the two masks sharing no bit). *)
Theorem is_constructor_ignores_static `{AccessMasks} `{!HasAccess DexMethod}
    (meth meth' : DexMethod) :
  Z.land ACC_STATIC ACC_CONSTRUCTOR = 0 →
  get_access meth' = Z.lor (get_access meth) ACC_STATIC →
  is_constructor meth' = is_constructor meth.
Proof.
  intros Hdisjoint Haccess. unfold is_constructor.
  by rewrite Haccess, Z.land_lor_distr_l, Hdisjoint, Z.lor_0_r.
Qed.
End FreeFunctionFacts.

Section AccessFacts.
Context {T : Type} `{HasAccess T} `{AccessMasks}.

Lemma to_bool_land_lor (a b mask : Z) :
  to_bool (Z.land (Z.lor a b) mask) =
    to_bool (Z.land a mask) || to_bool (Z.land b mask).
Proof.
  unfold to_bool. rewrite Z.land_lor_distr_l.
  destruct (Z.eqb_spec (Z.lor (Z.land a mask) (Z.land b mask)) 0) as [Hz|Hnz].
  - apply Z.lor_eq_0_iff in Hz as [-> ->]. done.
  - destruct (Z.eqb_spec (Z.land a mask) 0) as [Ha|]; [|done].
    destruct (Z.eqb_spec (Z.land b mask) 0) as [Hb|]; [|done].
    by rewrite Ha, Hb in Hnz.
Qed.

(** An entity whose access flags are the union of those of two others is
    final, static or abstract iff one of the two is. *)
Theorem access_matchers_on_union (t ta tb : T) :
  get_access t = Z.lor (get_access ta) (get_access tb) →
  matches is_final t = or_else (matches is_final ta) (matches is_final tb) ∧
  matches is_static t = or_else (matches is_static ta) (matches is_static tb) ∧
  matches is_abstract t =
    or_else (matches is_abstract ta) (matches is_abstract tb).
Proof.
  intros Haccess. cbn. rewrite Haccess, !to_bool_land_lor.
  repeat split;
    match goal with |- context [to_bool ?x || _] => by destruct (to_bool x) end.
Qed.
End AccessFacts.

Lemma is_constructor_ignores_static_witness :
  is_constructor (EM := Toy.model) ToyMore.clinit =
    is_constructor (EM := Toy.model) Toy.ctor.
Proof.
  apply (is_constructor_ignores_static (EM := Toy.model) Toy.ctor ToyMore.clinit);
    reflexivity.
Defined.

Lemma access_matchers_on_union_witness :
  matches is_final ToyMore.LIMIT =
    or_else (matches is_final ToyMore.counter) (matches is_final ToyMore.VERSION) ∧
  matches is_static ToyMore.LIMIT =
    or_else (matches is_static ToyMore.counter) (matches is_static ToyMore.VERSION) ∧
  matches is_abstract ToyMore.LIMIT =
    or_else (matches is_abstract ToyMore.counter)
            (matches is_abstract ToyMore.VERSION).
Proof.
  apply (access_matchers_on_union ToyMore.LIMIT ToyMore.counter ToyMore.VERSION).
  reflexivity.
Defined.

(** ** A failing component *)

Section SequenceFailure.
Context `{EM : EntityModel}.

(** A failed assertion of the first component on the first instruction is
    the outcome of [has_opcodes]: it is not turned into a verdict, and no
    later offset is tried. *)
Theorem has_opcodes_propagates_assertion {P Ps} (p : match_t IRInstruction P)
    (t : insn_tuple Ps) (meth : DexMethod) (insn : IRInstruction)
    (rest : list IRInstruction) :
  stream meth = Some (insn :: rest) →
  tuple_size (P :: Ps) ≤ size (insn :: rest) →
  matches p insn = AssertionFailure →
  matches (has_opcodes (Ps := P :: Ps) (p, t)) meth = AssertionFailure.
Proof.
  unfold stream. intros Hstream Hlong Hfail. cbn.
  destruct (get_code meth) as [code|]; [|done].
  injection Hstream as Hstream. rewrite Hstream.
  case_bool_decide as Hshort; [lia|].
  rewrite seqZ_cons.
  - cbn. change (to_int 0) with 0. change (vector_at (insn :: rest) 0) with (Ret insn).
    cbn. by rewrite Hfail.
  - unfold size_t_sub, to_size_t.
    pose proof (Z.mod_pos_bound (size (insn :: rest) - tuple_size (P :: Ps))
                  (2 ^ 64)). lia.
Qed.
End SequenceFailure.

Lemma has_opcodes_propagates_assertion_witness :
  matches (has_opcodes (EM := Toy.model) (Ps := [[_]])
             (opcode_method (EM := Toy.model) (named "<init>"), ()))
          Toy.foo = AssertionFailure.
Proof.
  apply (has_opcodes_propagates_assertion (EM := Toy.model) (Ps := [])
           (opcode_method (EM := Toy.model) (named "<init>")) () Toy.foo
           (Toy.Insn Toy.NOP None "")
           [Toy.Insn Toy.INVOKE_DIRECT (Some "<init>") "";
            Toy.Insn Toy.THROW None ""]).
  - reflexivity.
  - vm_compute. discriminate.
  - reflexivity.
Defined.

Lemma any_annos_exists_witness :
  ∃ b, matches (any_annos (T := Toy.class) (named "Ljava/lang/Deprecated;"))
         Toy.Marker = Ret b ∧
       (b = true ↔
          ∃ a, a ∈ ["Ljava/lang/Deprecated;"] ∧
               accepts (named "Ljava/lang/Deprecated;") a).
Proof.
  pose proof (any_annos_exists (T := Toy.class)
                (named "Ljava/lang/Deprecated;") Toy.Marker) as Hset.
  cbn in Hset. apply Hset. intros a _. by eexists.
Defined.
